(** * budgie: the ledger store of [budgie/db.py]

    A shallow embedding of the SQLAlchemy models and of the [Database]
    class.  Every table is the list of its rows in insertion order, a
    nullable column is an [option], and a method of [Database] is a
    function from the object's state to either the exception it raises or
    its return value together with the state it leaves behind.  Keys are
    drawn from one sequence per table, and a query without an order of its
    own gives its rows in table order unless it is answered from an
    index. *)

From Stdlib Require Import List ZArith String Bool Lia.
Import ListNotations.

Local Open Scope Z_scope.

(** ** Values *)

(** A [Date] column is kept as the ISO text of the date, which is what
    [str] of a [datetime.date] gives.  A [Numeric] column is an exact
    number; it is counted here in units of its last decimal place. *)
Definition date := string.
Definition numeric := Z.
Bind Scope string_scope with date.
Bind Scope Z_scope with numeric.

(** Equality on a nullable integer.  [filter_by(col=None)] is rendered
    [col IS NULL], so [None] matches [None]. *)
Definition opt_eqb (a b : option Z) : bool :=
  match a, b with
  | Some x, Some y => x =? y
  | None, None => true
  | _, _ => false
  end.

(** Truth value of an optional keyword argument: [None] and the empty
    string are both false. *)
Definition truthy (s : option string) : bool :=
  match s with
  | Some n => negb (n =? "")%string
  | None => false
  end.

(** ** Rows *)

Module UserModel.
Record t := mk
    { id : Z; email : string; password : string; salt : string;
      name : string; created : option date }.
End UserModel.

Module AccountModel.
Record t := mk
    { id : Z; user_id : option Z; name : string; description : string;
      type : string }.
End AccountModel.

Module EntryTagModel.
Record t := mk
    { id : Z; user_id : option Z; entry_id : option Z; tag_id : option Z }.
End EntryTagModel.

Module TagModel.
Record t := mk { id : Z; user_id : option Z; tag : string }.
End TagModel.

Module EntryModel.
Record t := mk
    { id : Z; user_id : option Z; who : string; when : date;
      credit_account_id : option Z; debit_account_id : option Z;
      amount : numeric; description : string }.
End EntryModel.

(** ** Records exchanged with the callers *)

(** The dictionaries the methods take.  [tags] may be absent, and
    [created] is stored as it comes, [None] included. *)
Module UserIn.
Record t := mk
    { name : string; email : string; password : string; salt : string;
      created : option date }.
End UserIn.

Module AccountIn.
Record t := mk { name : string; description : string; type : string }.
End AccountIn.

Module EntryIn.
Record t := mk
    { who : string; when : date; amount : numeric; description : string;
      debit_account : string; credit_account : string;
      tags : option (list string) }.
End EntryIn.

(** Modelled from the spec: [EntrySchema] and [AccountSchema] of
    [budgie/schemas.py], which is not part of the sources at hand.  The
    record-shaping layer hands the caller a record with the fields it was
    given, so [load] is the record of those fields. *)
Module EntrySchema.
Record t := load
    { id : Z; when : date; description : string; credit_account : string;
      debit_account : string; amount : numeric; who : string;
      tags : list string }.
End EntrySchema.

Module AccountSchema.
Record t := load { name : string; description : string; type : string }.
End AccountSchema.

(** ** The object *)

(** The five tables, the next value of each autoincrement key, and the
    [current_uid] attribute. *)
Record Database := mkDatabase
  { app_user : list UserModel.t;        app_user_seq : Z;
    account : list AccountModel.t;      account_seq : Z;
    tag : list TagModel.t;              tag_seq : Z;
    entry : list EntryModel.t;          entry_seq : Z;
    entry_tag : list EntryTagModel.t;   entry_tag_seq : Z;
    current_uid : option Z }.

(** [Database.__init__] on a fresh store. *)
Definition init : Database :=
  mkDatabase [] 1 [] 1 [] 1 [] 1 [] 1 None.

Definition with_current_uid (st : Database) (u : option Z) : Database :=
  mkDatabase (app_user st) (app_user_seq st) (account st) (account_seq st)
    (tag st) (tag_seq st) (entry st) (entry_seq st)
    (entry_tag st) (entry_tag_seq st) u.

Definition insert_user (st : Database) (u : UserModel.t) : Database :=
  mkDatabase (app_user st ++ [u]) (app_user_seq st + 1)
    (account st) (account_seq st) (tag st) (tag_seq st)
    (entry st) (entry_seq st) (entry_tag st) (entry_tag_seq st)
    (current_uid st).

Definition insert_account (st : Database) (a : AccountModel.t) : Database :=
  mkDatabase (app_user st) (app_user_seq st)
    (account st ++ [a]) (account_seq st + 1) (tag st) (tag_seq st)
    (entry st) (entry_seq st) (entry_tag st) (entry_tag_seq st)
    (current_uid st).

Definition insert_tag (st : Database) (t : TagModel.t) : Database :=
  mkDatabase (app_user st) (app_user_seq st) (account st) (account_seq st)
    (tag st ++ [t]) (tag_seq st + 1)
    (entry st) (entry_seq st) (entry_tag st) (entry_tag_seq st)
    (current_uid st).

(** ** Exceptions *)

(** [AttributeError]: an attribute is read off [None].
    [IntegrityError]: the store refuses a row that breaks a unique
    constraint. *)
Inductive exn := AttributeError | IntegrityError.

Inductive result (A : Type) :=
| Ok (a : A)
| Raise (e : exn).
Arguments Ok {A} a.
Arguments Raise {A} e.

Definition bind {A B} (r : result A) (k : A -> result B) : result B :=
  match r with
  | Ok a => k a
  | Raise e => Raise e
  end.

Notation "x <- r ;; k" := (bind r (fun x => k))
  (at level 61, r at next level, right associativity).

(** A comprehension whose body may raise: the first exception ends it. *)
Fixpoint traverse {A B} (f : A -> result B) (l : list A) : result (list B) :=
  match l with
  | [] => Ok []
  | x :: xs => y <- f x ;; ys <- traverse f xs ;; Ok (y :: ys)
  end.

(** [getattr] on the result of [first()] or of a many-to-one relationship. *)
Definition attr {A B} (o : option A) (f : A -> B) : result B :=
  match o with
  | Some a => Ok (f a)
  | None => Raise AttributeError
  end.

(** ** Queries and relationships *)

(** [query.first()]: the first row, in table order, that passes. *)
Definition first {A} (p : A -> bool) (rows : list A) : option A := find p rows.

(** [EntryModel.credit_account] and [EntryModel.debit_account]: the
    account whose key is the stored reference. *)
Definition account_by_id (st : Database) (r : option Z) : option AccountModel.t :=
  match r with
  | Some i => first (fun a => AccountModel.id a =? i) (account st)
  | None => None
  end.

Definition credit_account (st : Database) (e : EntryModel.t) :=
  account_by_id st (EntryModel.credit_account_id e).

Definition debit_account (st : Database) (e : EntryModel.t) :=
  account_by_id st (EntryModel.debit_account_id e).

(** [EntryModel.tags]: the association rows that point at the entry. *)
Definition entry_tags (st : Database) (e : EntryModel.t) : list EntryTagModel.t :=
  filter (fun et => opt_eqb (EntryTagModel.entry_id et) (Some (EntryModel.id e)))
    (entry_tag st).

(** [EntryTagModel.tag]. *)
Definition tag_of (st : Database) (et : EntryTagModel.t) : option TagModel.t :=
  match EntryTagModel.tag_id et with
  | Some i => first (fun t => TagModel.id t =? i) (tag st)
  | None => None
  end.

(** [relationship.has(name=n)]: an account row with the referenced key and
    the given name exists. *)
Definition has_name (st : Database) (r : option Z) (n : string) : bool :=
  match r with
  | Some i =>
      existsb (fun a => (AccountModel.id a =? i) && (AccountModel.name a =? n)%string)
        (account st)
  | None => false
  end.

(** [func.sum(...).scalar()]: [None] over no rows. *)
Definition sql_sum (l : list numeric) : option numeric :=
  match l with
  | [] => None
  | _ => Some (fold_right Z.add 0 l)
  end.

(** ** Methods of [Database] *)

Definition set_current_user (st : Database) (email : string)
  : result (unit * Database) :=
  let user := first (fun u => (UserModel.email u =? email)%string) (app_user st) in
  uid <- attr user UserModel.id ;;
  Ok (tt, with_current_uid st (Some uid)).

(** [UniqueConstraint("name", "user_id")]: two rows clash when both
    columns are equal and not null. *)
Definition account_clash (st : Database) (a : AccountModel.t) : bool :=
  existsb (fun b =>
             (AccountModel.name b =? AccountModel.name a)%string &&
             match AccountModel.user_id b, AccountModel.user_id a with
             | Some x, Some y => x =? y
             | _, _ => false
             end)
    (account st).

Definition create_account (st : Database) (acc : AccountIn.t)
  : result (unit * Database) :=
  let row :=
    AccountModel.mk (account_seq st) (current_uid st) (AccountIn.name acc)
      (AccountIn.description acc) (AccountIn.type acc) in
  if account_clash st row then Raise IntegrityError
  else Ok (tt, insert_account st row).

Definition create_tag (st : Database) (tag : string)
  : result (unit * Database) :=
  Ok (tt, insert_tag st (TagModel.mk (tag_seq st) (current_uid st) tag)).

(** [email] is declared [unique]. *)
Definition create_user (st : Database) (user : UserIn.t)
  : result (unit * Database) :=
  let row :=
    UserModel.mk (app_user_seq st) (UserIn.email user) (UserIn.password user)
      (UserIn.salt user) (UserIn.name user) (UserIn.created user) in
  if existsb (fun u => (UserModel.email u =? UserIn.email user)%string)
       (app_user st)
  then Raise IntegrityError
  else Ok (tt, insert_user st row).

(** The [EntryTagModel] rows of a new entry, keyed from [next] on. *)
Fixpoint link_tags (uid : option Z) (eid : Z) (tag_ids : list Z) (next : Z)
  : list EntryTagModel.t :=
  match tag_ids with
  | [] => []
  | i :: rest =>
      EntryTagModel.mk next uid (Some eid) (Some i)
        :: link_tags uid eid rest (next + 1)
  end.

(** [entry.get("tags", None)] when it is false (absent or empty) leaves
    nothing to loop over. *)
Definition tag_names (e : EntryIn.t) : list string :=
  match EntryIn.tags e with
  | Some l => l
  | None => []
  end.

(** The account a name is resolved to.  The query filters by the name
    alone and has no order of its own; it is answered from the index that
    [UniqueConstraint("name", "user_id")] puts on the table, so of several
    accounts of one name the one of the least owner comes first, null
    owners last, and of two rows of null owner the earlier one. *)
Definition owner_lt (a b : option Z) : bool :=
  match a, b with
  | Some x, Some y => x <? y
  | Some _, None => true
  | None, _ => false
  end.

Fixpoint least_owner (rows : list AccountModel.t) : option AccountModel.t :=
  match rows with
  | [] => None
  | a :: rest =>
      match least_owner rest with
      | Some b =>
          if owner_lt (AccountModel.user_id b) (AccountModel.user_id a)
          then Some b else Some a
      | None => Some a
      end
  end.

Definition account_named (st : Database) (n : string)
  : option AccountModel.t :=
  least_owner
    (filter (fun a => (AccountModel.name a =? n)%string) (account st)).

(** The [EntryModel] object with both account references assigned. *)
Definition entry_m (st : Database) (e : EntryIn.t) : EntryModel.t :=
  let debit := account_named st (EntryIn.debit_account e) in
  let credit := account_named st (EntryIn.credit_account e) in
  EntryModel.mk (entry_seq st) (current_uid st) (EntryIn.who e)
    (EntryIn.when e) (option_map AccountModel.id credit)
    (option_map AccountModel.id debit) (EntryIn.amount e)
    (EntryIn.description e).

(** Whether [entry_m] is in the session when the loop over the tags
    starts.  Assigning an account that was found appends [entry_m] to that
    account's entries, and the session the account lives in takes
    [entry_m] in along that path; an assignment of [None] does nothing. *)
Definition in_session (st : Database) (e : EntryIn.t) : bool :=
  match EntryModel.credit_account_id (entry_m st e),
        EntryModel.debit_account_id (entry_m st e) with
  | None, None => false
  | _, _ => true
  end.

(** The loop over [entry["tags"]].  Each name is looked up by its text
    alone; a name that is not found gets a new [TagModel] owned by the
    current user.  [made] are the tags the loop has made so far, keyed from
    the table's sequence in the order they were made.  A query flushes the
    session first, so once [entry_m] is in the session ([attached]) the
    tags made so far are stored rows and are found; linking a tag that was
    found takes the association, and through it [entry_m] and all that
    hangs off it, into the session.  As long as [entry_m] is outside the
    session only the rows of the table are seen.  The result is the list of
    the tags made and the tag key of every association. *)
Fixpoint tag_loop (st : Database) (attached : bool) (made : list TagModel.t)
  (names : list string) (next : Z) : list TagModel.t * list Z :=
  match names with
  | [] => (made, [])
  | n :: ns =>
      match first (fun t => (TagModel.tag t =? n)%string)
              (tag st ++ (if attached then made else [])) with
      | Some t =>
          let (new, ids) := tag_loop st true made ns next in
          (new, TagModel.id t :: ids)
      | None =>
          let (new, ids) :=
            tag_loop st attached
              (made ++ [TagModel.mk next (current_uid st) n]) ns (next + 1) in
          (new, next :: ids)
      end
  end.

(** The loop as [add_entry] runs it: no tag made yet, keys from the
    table's sequence. *)
Definition resolve_tags (st : Database) (e : EntryIn.t)
  : list TagModel.t * list Z :=
  tag_loop st (in_session st e) [] (tag_names e) (tag_seq st).

Definition add_entry (st : Database) (e : EntryIn.t)
  : result (unit * Database) :=
  let (new_tags, tag_ids) := resolve_tags st e in
  let links :=
    link_tags (current_uid st) (entry_seq st) tag_ids (entry_tag_seq st) in
  Ok (tt,
      mkDatabase (app_user st) (app_user_seq st) (account st) (account_seq st)
        (tag st ++ new_tags) (tag_seq st + Z.of_nat (List.length new_tags))
        (entry st ++ [entry_m st e]) (entry_seq st + 1)
        (entry_tag st ++ links) (entry_tag_seq st + Z.of_nat (List.length links))
        (current_uid st)).

(** [session.delete(row)] removes the row with that primary key.  The
    state after the loop over [entry.tags] and the deletion of [e]. *)
Definition without_entry (st : Database) (e : EntryModel.t) : Database :=
  let gone := map EntryTagModel.id (entry_tags st e) in
  mkDatabase (app_user st) (app_user_seq st)
    (account st) (account_seq st) (tag st) (tag_seq st)
    (filter (fun x => negb (EntryModel.id x =? EntryModel.id e)) (entry st))
    (entry_seq st)
    (filter (fun et => negb (existsb (Z.eqb (EntryTagModel.id et)) gone))
       (entry_tag st))
    (entry_tag_seq st) (current_uid st).

Definition delete_entry (st : Database) (entry_id : Z)
  : result (bool * Database) :=
  match first (fun e => opt_eqb (EntryModel.user_id e) (current_uid st)
                        && (EntryModel.id e =? entry_id)) (entry st) with
  | None => Ok (false, st)
  | Some e => Ok (true, without_entry st e)
  end.

(** A keyword filter applies only when its argument is true. *)
Definition filter_if {A} (arg : option string) (p : string -> A -> bool)
  (rows : list A) : list A :=
  match arg with
  | Some n => if truthy arg then filter (p n) rows else rows
  | None => rows
  end.

(** The rows [list_entries] iterates over. *)
Definition query_entries (st : Database) (dr cr : option string)
  : list EntryModel.t :=
  let entries :=
    filter (fun e => opt_eqb (EntryModel.user_id e) (current_uid st))
      (entry st) in
  let entries :=
    filter_if dr (fun n e => has_name st (EntryModel.debit_account_id e) n)
      entries in
  filter_if cr (fun n e => has_name st (EntryModel.credit_account_id e) n)
    entries.

(** The dictionary built for one entry, with its attribute reads in the
    order of the source. *)
Definition entry_record (st : Database) (e : EntryModel.t)
  : result EntrySchema.t :=
  c <- attr (credit_account st e) AccountModel.name ;;
  d <- attr (debit_account st e) AccountModel.name ;;
  ts <- traverse (fun et => attr (tag_of st et) TagModel.tag)
          (entry_tags st e) ;;
  Ok (EntrySchema.load (EntryModel.id e) (EntryModel.when e)
        (EntryModel.description e) c d (EntryModel.amount e)
        (EntryModel.who e) ts).

Definition list_entries (st : Database) (dr cr : option string)
  : result (list EntrySchema.t * Database) :=
  entry_list <- traverse (entry_record st) (query_entries st dr cr) ;;
  Ok (entry_list, st).

Definition list_accounts (st : Database) (type_ : option string)
  : result (list AccountSchema.t * Database) :=
  let accounts :=
    filter (fun a => opt_eqb (AccountModel.user_id a) (current_uid st))
      (account st) in
  let accounts :=
    filter_if type_ (fun n a => (AccountModel.type a =? n)%string) accounts in
  Ok (map (fun a => AccountSchema.load (AccountModel.name a)
                      (AccountModel.description a) (AccountModel.type a))
        accounts,
      st).

(** [0 if not s else s]: [None] and zero both read as [0]. *)
Definition or_zero (s : option numeric) : numeric :=
  match s with
  | Some v => if v =? 0 then 0 else v
  | None => 0
  end.

Definition get_account_balance (st : Database) (account : string)
  : result (numeric * Database) :=
  let sum_cr :=
    sql_sum
      (map EntryModel.amount
         (filter (fun e => has_name st (EntryModel.credit_account_id e) account)
            (filter (fun e => opt_eqb (EntryModel.user_id e) (current_uid st))
               (entry st)))) in
  let sum_dr :=
    sql_sum
      (map EntryModel.amount
         (filter (fun e => has_name st (EntryModel.debit_account_id e) account)
            (filter (fun e => opt_eqb (EntryModel.user_id e) (current_uid st))
               (entry st)))) in
  let sum_dr := or_zero sum_dr in
  let sum_cr := or_zero sum_cr in
  Ok (sum_dr - sum_cr, st).

(** ** Tables with a primary key *)

(** Every key of the table was handed out before [n]. *)
Definition keys_below {A} (key : A -> Z) (n : Z) (rows : list A) : Prop :=
  forall x, In x rows -> key x < n.

Definition by_key {A} (key : A -> Z) (i : Z) (x : A) : bool := key x =? i.

(** The keys [n], [n + 1], ... in this order. *)
Fixpoint consecutive (n : Z) (l : list Z) : Prop :=
  match l with
  | [] => True
  | x :: rest => x = n /\ consecutive (n + 1) rest
  end.

(** ** The state invariant *)

(** What the storage layer guarantees of the rows the methods wrote:
    primary keys are distinct and were handed out by the table's
    sequence, e-mail addresses are distinct, and an association points at
    an entry key that was handed out. *)
Record wf (st : Database) : Prop := mk_wf
  { wf_user_ids : NoDup (map UserModel.id (app_user st));
    wf_user_seq : keys_below UserModel.id (app_user_seq st) (app_user st);
    wf_emails : NoDup (map UserModel.email (app_user st));
    wf_account_ids : NoDup (map AccountModel.id (account st));
    wf_account_seq : keys_below AccountModel.id (account_seq st) (account st);
    wf_tag_ids : NoDup (map TagModel.id (tag st));
    wf_tag_seq : keys_below TagModel.id (tag_seq st) (tag st);
    wf_entry_ids : NoDup (map EntryModel.id (entry st));
    wf_entry_seq : keys_below EntryModel.id (entry_seq st) (entry st);
    wf_entry_tag_ids : NoDup (map EntryTagModel.id (entry_tag st));
    wf_entry_tag_seq :
      keys_below EntryTagModel.id (entry_tag_seq st) (entry_tag st);
    wf_links :
      forall et, In et (entry_tag st) ->
      exists i, EntryTagModel.entry_id et = Some i /\ i < entry_seq st }.

(** ** The words of the specification *)

(** The entry belongs to the current identity. *)
Definition owned (st : Database) (e : EntryModel.t) : bool :=
  opt_eqb (EntryModel.user_id e) (current_uid st).

(** A sum in which no rows count as zero. *)
Definition total (l : list numeric) : numeric := fold_right Z.add 0 l.

(** The entries of the current identity whose debit side, respectively
    credit side, is an account of the given name. *)
Definition debits (st : Database) (n : string) : list EntryModel.t :=
  filter (fun e => owned st e && has_name st (EntryModel.debit_account_id e) n)
    (entry st).

Definition credits (st : Database) (n : string) : list EntryModel.t :=
  filter (fun e => owned st e && has_name st (EntryModel.credit_account_id e) n)
    (entry st).

(** Debit-side amounts minus credit-side amounts. *)
Definition balance (st : Database) (n : string) : numeric :=
  total (map EntryModel.amount (debits st n))
  - total (map EntryModel.amount (credits st n)).

(** The amount a new entry adds to the sum over one of its sides. *)
Definition share (st : Database) (r : option Z) (n : string) (e : EntryIn.t)
  : numeric :=
  if has_name st r n then EntryIn.amount e else 0.

(** The account on a side of an entry carries the given name. *)
Definition side_named (side : option AccountModel.t) (n : string) : bool :=
  match side with
  | Some a => (AccountModel.name a =? n)%string
  | None => false
  end.

(** A filter argument restricts the result when it is present and not the
    empty string. *)
Definition restricts (arg : option string) (p : string -> bool) : bool :=
  match arg with
  | Some n => if (n =? "")%string then true else p n
  | None => true
  end.

(** The test the two keyword filters of a listing apply to a row. *)
Definition passes (st : Database) (dr cr : option string) (e : EntryModel.t)
  : bool :=
  owned st e
  && restricts dr (has_name st (EntryModel.debit_account_id e))
  && restricts cr (has_name st (EntryModel.credit_account_id e)).

(** The entries a listing with the two filters is about: those of the
    current identity that pass both restrictions. *)
Definition selected (st : Database) (dr cr : option string) (e : EntryModel.t)
  : bool :=
  owned st e
  && restricts dr (side_named (debit_account st e))
  && restricts cr (side_named (credit_account st e)).

(** The record a listing shows for an entry that was submitted as [e] and
    stored under the key [i]. *)
Definition submitted (i : Z) (e : EntryIn.t) : EntrySchema.t :=
  EntrySchema.load i (EntryIn.when e) (EntryIn.description e)
    (EntryIn.credit_account e) (EntryIn.debit_account e) (EntryIn.amount e)
    (EntryIn.who e) (tag_names e).

(** The name resolves to some account row. *)
Definition resolves (st : Database) (n : string) : Prop :=
  exists a, In a (account st) /\ AccountModel.name a = n.

(** ** A session used by the examples *)

Definition alice : UserIn.t :=
  UserIn.mk "alice" "alice@example.com" "pw" "na" (Some "2024-01-01"%string).
Definition carol : UserIn.t :=
  UserIn.mk "carol" "carol@example.com" "pw" "cl" (Some "2024-01-01"%string).
Definition cash : AccountIn.t := AccountIn.mk "cash" "wallet" "asset".
Definition salary : AccountIn.t := AccountIn.mk "salary" "job" "income".
Definition paycheck : EntryIn.t :=
  EntryIn.mk "bob" "2024-01-01" 1000 "paycheck" "cash" "salary" None.

(** A paycheck credited to an account nobody has. *)
Definition unknown_credit : EntryIn.t :=
  EntryIn.mk "bob" "2024-01-01" 1000 "paycheck" "cash" "wages" None.

(** A paycheck debited to an account only Carol has. *)
Definition into_savings : EntryIn.t :=
  EntryIn.mk "bob" "2024-01-01" 1000 "paycheck" "savings" "salary" None.

(** A paycheck tagged with a text Carol has a tag of. *)
Definition tagged_paycheck : EntryIn.t :=
  EntryIn.mk "bob" "2024-01-01" 1000 "paycheck" "cash" "salary"
    (Some ["groceries"%string]).

(** Runs a method for its effect; an exception rolls the rows back and
    leaves the object as it was. *)
Definition exec {A} (m : Database -> result (A * Database)) (st : Database)
  : Database :=
  match m st with
  | Ok (_, st') => st'
  | Raise _ => st
  end.

(** A refused insert is rolled back, but the key its row drew from the
    sequence is not given back. *)
Definition skip_user_key (st : Database) : Database :=
  mkDatabase (app_user st) (app_user_seq st + 1) (account st) (account_seq st)
    (tag st) (tag_seq st) (entry st) (entry_seq st)
    (entry_tag st) (entry_tag_seq st) (current_uid st).

Definition skip_account_key (st : Database) : Database :=
  mkDatabase (app_user st) (app_user_seq st) (account st) (account_seq st + 1)
    (tag st) (tag_seq st) (entry st) (entry_seq st)
    (entry_tag st) (entry_tag_seq st) (current_uid st).

Definition exec_insert {A} (skip : Database -> Database)
  (m : Database -> result (A * Database)) (st : Database) : Database :=
  match m st with
  | Ok (_, st') => st'
  | Raise _ => skip st
  end.

(** The returned value of a method, when it returns. *)
Definition value {A} (r : result (A * Database)) : option A :=
  match r with
  | Ok (a, _) => Some a
  | Raise _ => None
  end.

(** The calls that write, and a sequence of them on a fresh object. *)
Inductive call :=
| SetCurrentUser (email : string)
| CreateUser (user : UserIn.t)
| CreateAccount (acc : AccountIn.t)
| CreateTag (tag : string)
| AddEntry (e : EntryIn.t)
| DeleteEntry (entry_id : Z).

Definition run (st : Database) (c : call) : Database :=
  match c with
  | SetCurrentUser email => exec (fun st => set_current_user st email) st
  | CreateUser user =>
      exec_insert skip_user_key (fun st => create_user st user) st
  | CreateAccount acc =>
      exec_insert skip_account_key (fun st => create_account st acc) st
  | CreateTag tag => exec (fun st => create_tag st tag) st
  | AddEntry e => exec (fun st => add_entry st e) st
  | DeleteEntry i => exec (fun st => delete_entry st i) st
  end.

Definition session (calls : list call) : Database := fold_left run calls init.

(** Alice with her two accounts. *)
Definition alice_books : Database :=
  session [CreateUser alice; SetCurrentUser "alice@example.com";
           CreateAccount cash; CreateAccount salary].

(** Alice after her paycheck. *)
Definition alice_paid : Database := run alice_books (AddEntry paycheck).

(** Carol has an account and a tag of her own; Alice is the one acting. *)
Definition two_users : Database :=
  session [CreateUser alice; CreateUser carol;
           SetCurrentUser "carol@example.com";
           CreateAccount (AccountIn.mk "savings" "carol's" "asset");
           CreateTag "groceries";
           SetCurrentUser "alice@example.com";
           CreateAccount cash; CreateAccount salary].

(** Alice after a paycheck carrying a tag. *)
Definition alice_tagged : Database := run two_users (AddEntry tagged_paycheck).

(** ** Looking a user up *)

(** Modelled from the spec: [UserSchema] of [budgie/schemas.py], which is
    not part of the sources at hand; as for the other schemas, [load] is
    the record of the fields it is given. *)
Module UserSchema.
Record t := load
    { name : string; email : string; password : string; salt : string;
      created : date }.
End UserSchema.

(** [d.isoformat()] of a date is the ISO text it is kept as. *)
Definition isoformat (d : date) : string := d.

(** The row is tested before it is read; [created] is not, and
    [isoformat] is read off it even when the column is null. *)
Definition get_user (st : Database) (email : string)
  : result (option UserSchema.t * Database) :=
  match first (fun u => (UserModel.email u =? email)%string) (app_user st) with
  | None => Ok (None, st)
  | Some user =>
      created <- attr (UserModel.created user) isoformat ;;
      Ok (Some (UserSchema.load (UserModel.name user) (UserModel.email user)
                  (UserModel.password user) (UserModel.salt user) created),
          st)
  end.

(** ** Further properties of a state *)

(** No two accounts of one owner carry the same name. *)
Definition unique_names (st : Database) : Prop :=
  forall a b u,
    In a (account st) -> In b (account st) ->
    AccountModel.user_id a = Some u -> AccountModel.user_id b = Some u ->
    AccountModel.name a = AccountModel.name b ->
    AccountModel.id a = AccountModel.id b.

(** A reference that is not null points at a stored row: an account
    reference of an entry at an account, an association at its entry and
    at its tag. *)
Definition account_ref_ok (st : Database) (r : option Z) : Prop :=
  forall i, r = Some i -> exists a, In a (account st) /\ AccountModel.id a = i.

Record refs_ok (st : Database) : Prop := mk_refs_ok
  { refs_credit :
      forall e, In e (entry st) ->
      account_ref_ok st (EntryModel.credit_account_id e);
    refs_debit :
      forall e, In e (entry st) ->
      account_ref_ok st (EntryModel.debit_account_id e);
    refs_link_entry :
      forall et, In et (entry_tag st) ->
      exists e, In e (entry st)
                /\ EntryTagModel.entry_id et = Some (EntryModel.id e);
    refs_link_tag :
      forall et, In et (entry_tag st) ->
      exists t, In t (tag st)
                /\ EntryTagModel.tag_id et = Some (TagModel.id t) }.

(** What a stored entry weighs in the balance of an account name. *)
Definition weight (st : Database) (n : string) (e : EntryModel.t) : numeric :=
  (if has_name st (EntryModel.debit_account_id e) n
   then EntryModel.amount e else 0)
  - (if has_name st (EntryModel.credit_account_id e) n
     then EntryModel.amount e else 0).

(** The record [list_accounts] shows for a row. *)
Definition account_record (a : AccountModel.t) : AccountSchema.t :=
  AccountSchema.load (AccountModel.name a) (AccountModel.description a)
    (AccountModel.type a).

(** The amount an entry moves into an account name: in on the debit side,
    out on the credit side. *)
Definition moved (e : EntryIn.t) (n : string) : numeric :=
  (if (EntryIn.debit_account e =? n)%string then EntryIn.amount e else 0)
  - (if (EntryIn.credit_account e =? n)%string then EntryIn.amount e else 0).

(** The same store with [v] as the identity that reads it. *)
Definition reads_as (st : Database) (v : option Z) : Database :=
  with_current_uid st v.

(** The store [st'] looks to the identity [v] as the store [st] did: the
    same entries and accounts of [v], whose sides match the same names and
    whose records, where they could be built, are the same. *)
Record same_view (v : option Z) (st st' : Database) : Prop := mk_same_view
  { view_entries :
      filter (fun e => opt_eqb (EntryModel.user_id e) v) (entry st')
      = filter (fun e => opt_eqb (EntryModel.user_id e) v) (entry st);
    view_accounts :
      filter (fun a => opt_eqb (AccountModel.user_id a) v) (account st')
      = filter (fun a => opt_eqb (AccountModel.user_id a) v) (account st);
    view_sides :
      forall e n, In e (entry st) ->
        has_name st' (EntryModel.debit_account_id e) n
        = has_name st (EntryModel.debit_account_id e) n
        /\ has_name st' (EntryModel.credit_account_id e) n
           = has_name st (EntryModel.credit_account_id e) n;
    view_records :
      forall e r, In e (entry st) -> EntryModel.user_id e = v ->
        entry_record st e = Ok r -> entry_record st' e = Ok r }.

(** * Lemmas on keyed tables *)

Section Keyed.
Context {A : Type} (key : A -> Z).

Lemma keys_below_nil n : keys_below key n [].
Proof. intros x []. Qed.

Lemma keys_below_app n m rows more :
  keys_below key n rows -> keys_below key m more -> n <= m ->
  keys_below key m (rows ++ more).
Proof.
  intros Hr Hm Hle x Hx. apply in_app_or in Hx as [Hx | Hx].
  - specialize (Hr x Hx). lia.
  - now apply Hm.
Qed.

Lemma keys_below_filter n p rows :
  keys_below key n rows -> keys_below key n (filter p rows).
Proof. intros H x Hx. apply filter_In in Hx as [Hx _]. now apply H. Qed.

Lemma NoDup_keys_app n rows more :
  NoDup (map key rows) -> keys_below key n rows ->
  NoDup (map key more) -> (forall x, In x more -> n <= key x) ->
  NoDup (map key (rows ++ more)).
Proof.
  intros Hr Hb Hm Hge. rewrite map_app.
  induction rows as [| r rows IH]; simpl; [assumption |].
  inversion Hr as [| ? ? Hnin Hr']; subst.
  constructor.
  - intros Hin. apply in_app_or in Hin as [Hin | Hin]; [contradiction |].
    apply in_map_iff in Hin as (x & Hk & Hx).
    specialize (Hge x Hx). specialize (Hb r (or_introl eq_refl)). lia.
  - apply IH; [assumption |]. intros x Hx. apply Hb. now right.
Qed.

Lemma NoDup_keys_filter p rows :
  NoDup (map key rows) -> NoDup (map key (filter p rows)).
Proof.
  induction rows as [| r rows IH]; simpl; intros H; [constructor |].
  inversion H as [| ? ? Hnin H']; subst.
  destruct (p r); simpl; [constructor |]; auto.
  intros Hin. apply Hnin. apply in_map_iff in Hin as (x & Hk & Hx).
  apply filter_In in Hx as [Hx _]. apply in_map_iff. now exists x.
Qed.

(** With distinct keys, a lookup by the key of a stored row gives that
    row back. *)
Lemma first_by_key rows x :
  NoDup (map key rows) -> In x rows ->
  first (by_key key (key x)) rows = Some x.
Proof.
  unfold first, by_key.
  induction rows as [| r rows IH]; simpl; intros Hnd Hin; [contradiction |].
  inversion Hnd as [| ? ? Hnin Hnd']; subst.
  destruct Hin as [-> | Hin].
  - now rewrite Z.eqb_refl.
  - destruct (key r =? key x) eqn:E.
    + apply Z.eqb_eq in E. exfalso. apply Hnin. rewrite E.
      now apply in_map.
    + now apply IH.
Qed.

End Keyed.

(** What [first] finds passes the test and is a row of the table. *)
Lemma first_some {A} (p : A -> bool) rows x :
  first p rows = Some x -> In x rows /\ p x = true.
Proof. apply find_some. Qed.

Lemma first_none {A} (p : A -> bool) rows :
  first p rows = None -> forall x, In x rows -> p x = false.
Proof. apply find_none. Qed.

Lemma first_app_some {A} (p : A -> bool) rows more x :
  first p rows = Some x -> first p (rows ++ more) = Some x.
Proof.
  unfold first. induction rows as [| r rows IH]; simpl; [discriminate |].
  destruct (p r); auto.
Qed.

Lemma least_owner_In rows a : least_owner rows = Some a -> In a rows.
Proof.
  revert a. induction rows as [| x rows IH]; simpl; intros a H; [discriminate |].
  destruct (least_owner rows) as [b |].
  - destruct (owner_lt _ _); injection H as <-; auto.
  - injection H as <-. now left.
Qed.

Lemma least_owner_some rows x :
  In x rows -> exists a, least_owner rows = Some a.
Proof.
  destruct rows as [| y rows]; [intros [] | intros _]. simpl.
  destruct (least_owner rows) as [b |]; [destruct (owner_lt _ _) |]; eauto.
Qed.

(** The account a name is resolved to is a stored account of that name,
    and there is one as soon as some account has the name. *)
Lemma account_named_some st n a :
  account_named st n = Some a ->
  In a (account st) /\ AccountModel.name a = n.
Proof.
  intros H. apply least_owner_In, filter_In in H as [Hin Hn].
  split; [assumption | now apply String.eqb_eq].
Qed.

Lemma account_named_exists st n :
  (exists a, In a (account st) /\ AccountModel.name a = n) ->
  exists a, account_named st n = Some a.
Proof.
  intros (a & Ha & Hn). apply (least_owner_some _ a). apply filter_In.
  split; [assumption | now apply String.eqb_eq].
Qed.

Lemma opt_eqb_refl a : opt_eqb a a = true.
Proof. destruct a; simpl; [apply Z.eqb_refl | reflexivity]. Qed.

Lemma opt_eqb_eq a b : opt_eqb a b = true <-> a = b.
Proof.
  destruct a, b; simpl; split; intros H; try congruence; try reflexivity.
  - apply Z.eqb_eq in H. now subst.
  - injection H as ->. apply Z.eqb_refl.
Qed.

(** ** Keys handed out by a sequence *)

Lemma consecutive_bounds n l :
  consecutive n l ->
  forall x, In x l -> n <= x < n + Z.of_nat (List.length l).
Proof.
  revert n. induction l as [| y l IH]; simpl; intros n H x Hx; [contradiction |].
  destruct H as [-> H]. destruct Hx as [-> | Hx]; [lia |].
  specialize (IH _ H x Hx). lia.
Qed.

Lemma consecutive_NoDup n l : consecutive n l -> NoDup l.
Proof.
  revert n. induction l as [| y l IH]; simpl; intros n H; [constructor |].
  destruct H as [-> H]. constructor; [| eauto].
  intros Hin. pose proof (consecutive_bounds _ _ H _ Hin). lia.
Qed.

Lemma link_tags_keys uid eid ids next :
  consecutive next (map EntryTagModel.id (link_tags uid eid ids next)).
Proof.
  revert next. induction ids as [| i ids IH]; simpl; intros next; auto.
Qed.

Lemma link_tags_entry uid eid ids next et :
  In et (link_tags uid eid ids next) ->
  EntryTagModel.entry_id et = Some eid /\ EntryTagModel.user_id et = uid.
Proof.
  revert next. induction ids as [| i ids IH]; simpl; intros next H;
    [contradiction |].
  destruct H as [<- | H]; [now split | eauto].
Qed.

Lemma consecutive_snoc n l :
  consecutive n l -> consecutive n (l ++ [n + Z.of_nat (List.length l)]).
Proof.
  revert n. induction l as [| x l IH]; intros n H.
  - simpl. split; [lia | exact I].
  - destruct H as [-> H]. split; [reflexivity |].
    replace (n + Z.of_nat (List.length (n :: l)))
      with (n + 1 + Z.of_nat (List.length l))
      by (cbn [List.length]; lia).
    now apply IH.
Qed.

Lemma tag_loop_prefix st att made names next new ids :
  tag_loop st att made names next = (new, ids) ->
  exists more, new = made ++ more.
Proof.
  revert att made next new ids.
  induction names as [| n names IH]; simpl; intros att made next new ids H.
  - injection H as <- <-. exists []. now rewrite app_nil_r.
  - destruct (first _ _) as [t |].
    + destruct (tag_loop st true made names next) as [new' ids'] eqn:E.
      injection H as <- <-. eauto.
    + destruct (tag_loop st att _ names (next + 1)) as [new' ids'] eqn:E.
      injection H as <- <-. destruct (IH _ _ _ _ _ E) as [more ->].
      rewrite <- app_assoc. eauto.
Qed.

Lemma tag_loop_keys st att made names next new ids start :
  consecutive start (map TagModel.id made) ->
  next = start + Z.of_nat (List.length made) ->
  tag_loop st att made names next = (new, ids) ->
  consecutive start (map TagModel.id new).
Proof.
  revert att made next new ids.
  induction names as [| n names IH]; simpl; intros att made next new ids Hc Hn H.
  - now injection H as <- <-.
  - destruct (first _ _) as [t |].
    + destruct (tag_loop st true made names next) as [new' ids'] eqn:E.
      injection H as <- <-. eauto.
    + destruct (tag_loop st att _ names (next + 1)) as [new' ids'] eqn:E.
      injection H as <- <-. eapply IH; [| | exact E].
      * rewrite map_app. cbn [map TagModel.id]. subst next.
        rewrite <- (length_map TagModel.id made). now apply consecutive_snoc.
      * rewrite length_app. cbn [List.length]. lia.
Qed.

Lemma resolve_tags_keys st e new ids :
  resolve_tags st e = (new, ids) ->
  consecutive (tag_seq st) (map TagModel.id new).
Proof.
  apply tag_loop_keys; [exact I | simpl; lia].
Qed.

(** ** The invariant holds of every reachable state *)

Lemma wf_init : wf init.
Proof.
  constructor; simpl; try constructor; try apply keys_below_nil.
  intros et [].
Qed.

Lemma set_current_user_wf st email st' :
  wf st -> set_current_user st email = Ok (tt, st') -> wf st'.
Proof.
  intros [] H. unfold set_current_user in H.
  destruct (first _ (app_user st)); simpl in H; [| discriminate].
  injection H as <-. constructor; assumption.
Qed.

Lemma keys_below_snoc {A} (key : A -> Z) n rows x :
  keys_below key n rows -> key x = n -> keys_below key (n + 1) (rows ++ [x]).
Proof.
  intros H Hx. apply keys_below_app with (n := n); [assumption | | lia].
  intros y [<- | []]. lia.
Qed.

Lemma NoDup_keys_snoc {A} (key : A -> Z) n rows x :
  NoDup (map key rows) -> keys_below key n rows -> key x = n ->
  NoDup (map key (rows ++ [x])).
Proof.
  intros Hnd Hb Hx. apply NoDup_keys_app with (n := n); try assumption.
  - simpl. constructor; [intros [] | constructor].
  - intros y [<- | []]. lia.
Qed.

Lemma create_user_wf st user st' :
  wf st -> create_user st user = Ok (tt, st') -> wf st'.
Proof.
  intros [] H. unfold create_user in H.
  destruct (existsb _ (app_user st)) eqn:E; [discriminate |].
  injection H as <-. constructor; simpl; try assumption.
  - eapply NoDup_keys_snoc; eauto.
  - now apply keys_below_snoc.
  - rewrite map_app. simpl. apply NoDup_app; [assumption | |].
    + constructor; [intros [] | constructor].
    + intros em Hin [<- | []].
      apply in_map_iff in Hin as (u & Hu & Hin).
      assert (Hex : existsb
                (fun u => (UserModel.email u =? UserIn.email user)%string)
                (app_user st) = true).
      { apply existsb_exists. exists u. split; [assumption |].
        now apply String.eqb_eq. }
      congruence.
Qed.

Lemma create_account_wf st acc st' :
  wf st -> create_account st acc = Ok (tt, st') -> wf st'.
Proof.
  intros [] H. unfold create_account in H.
  destruct (account_clash st _); [discriminate |].
  injection H as <-. constructor; simpl; try assumption.
  - eapply NoDup_keys_snoc; eauto.
  - now apply keys_below_snoc.
Qed.

Lemma create_tag_wf st t st' :
  wf st -> create_tag st t = Ok (tt, st') -> wf st'.
Proof.
  intros [] H. unfold create_tag in H.
  injection H as <-. constructor; simpl; try assumption.
  - eapply NoDup_keys_snoc; eauto.
  - now apply keys_below_snoc.
Qed.

Lemma keys_below_consecutive {A} (key : A -> Z) n rows :
  consecutive n (map key rows) ->
  keys_below key (n + Z.of_nat (List.length rows)) rows
  /\ (forall x, In x rows -> n <= key x)
  /\ NoDup (map key rows).
Proof.
  intros H. pose proof (consecutive_bounds _ _ H) as Hb.
  rewrite length_map in Hb. repeat split.
  - intros x Hx. apply Hb. now apply in_map.
  - intros x Hx. apply Hb. now apply in_map.
  - eapply consecutive_NoDup; eauto.
Qed.

Lemma add_entry_wf st e st' :
  wf st -> add_entry st e = Ok (tt, st') -> wf st'.
Proof.
  intros [] H. unfold add_entry in H.
  destruct (resolve_tags st e) as [new ids] eqn:E.
  injection H as <-.
  apply resolve_tags_keys, keys_below_consecutive in E as (Hn1 & Hn2 & Hn3).
  pose proof (link_tags_keys (current_uid st) (entry_seq st) ids
                (entry_tag_seq st)) as Hl.
  apply keys_below_consecutive in Hl as (Hl1 & Hl2 & Hl3).
  constructor; simpl; try assumption.
  - eapply NoDup_keys_app; eauto.
  - eapply keys_below_app; eauto. lia.
  - eapply NoDup_keys_snoc; eauto.
  - now apply keys_below_snoc.
  - eapply NoDup_keys_app; eauto.
  - eapply keys_below_app; eauto. lia.
  - intros et Hin. apply in_app_or in Hin as [Hin | Hin].
    + destruct (wf_links0 et Hin) as (i & Hi & Hlt). exists i. split; [auto | lia].
    + apply link_tags_entry in Hin as [Hin _]. exists (entry_seq st).
      split; [assumption | lia].
Qed.

Lemma delete_entry_wf st i b st' :
  wf st -> delete_entry st i = Ok (b, st') -> wf st'.
Proof.
  intros [] H. unfold delete_entry in H.
  destruct (first _ (entry st)) as [e |].
  - injection H as <- <-. constructor; simpl; try assumption.
    + now apply NoDup_keys_filter.
    + now apply keys_below_filter.
    + now apply NoDup_keys_filter.
    + now apply keys_below_filter.
    + intros et Hin. apply filter_In in Hin as [Hin _]. auto.
  - injection H as <- <-. constructor; assumption.
Qed.

Lemma keys_below_succ {A} (key : A -> Z) n rows :
  keys_below key n rows -> keys_below key (n + 1) rows.
Proof. intros H x Hx. specialize (H x Hx). lia. Qed.

Lemma skip_user_key_wf st : wf st -> wf (skip_user_key st).
Proof.
  intros []. constructor; simpl; try assumption. now apply keys_below_succ.
Qed.

Lemma skip_account_key_wf st : wf st -> wf (skip_account_key st).
Proof.
  intros []. constructor; simpl; try assumption. now apply keys_below_succ.
Qed.

Lemma run_wf st c : wf st -> wf (run st c).
Proof.
  intros H. destruct c; simpl; unfold exec, exec_insert.
  - destruct (set_current_user st email) as [[[] st'] |] eqn:E;
      eauto using set_current_user_wf.
  - destruct (create_user st user) as [[[] st'] |] eqn:E;
      eauto using create_user_wf, skip_user_key_wf.
  - destruct (create_account st acc) as [[[] st'] |] eqn:E;
      eauto using create_account_wf, skip_account_key_wf.
  - destruct (create_tag st tag0) as [[[] st'] |] eqn:E;
      eauto using create_tag_wf.
  - destruct (add_entry st e) as [[[] st'] |] eqn:E;
      eauto using add_entry_wf.
  - destruct (delete_entry st entry_id) as [[b st'] |] eqn:E;
      eauto using delete_entry_wf.
Qed.

Lemma session_wf calls : wf (session calls).
Proof.
  unfold session. generalize wf_init. generalize init.
  induction calls as [| c calls IH]; simpl; intros st H; [assumption |].
  apply IH. now apply run_wf.
Qed.

(** * The balance aggregator *)

Lemma filter_andb {A} (p q : A -> bool) l :
  filter q (filter p l) = filter (fun x => p x && q x) l.
Proof.
  induction l as [| x l IH]; simpl; [reflexivity |].
  destruct (p x); simpl; [destruct (q x) |]; now rewrite IH.
Qed.

Lemma or_zero_sql_sum l : or_zero (sql_sum l) = total l.
Proof.
  destruct l as [| x l]; simpl; [reflexivity |].
  fold (total l). destruct (x + total l =? 0) eqn:E; [| reflexivity].
  apply Z.eqb_eq in E. now rewrite E.
Qed.

Lemma get_account_balance_eq st n :
  get_account_balance st n = Ok (balance st n, st).
Proof.
  unfold get_account_balance, balance, debits, credits, owned.
  now rewrite !filter_andb, !or_zero_sql_sum.
Qed.

(** C1. [get_account_balance] returns the sum of the amounts of the
    current identity's entries debiting the named account minus the sum of
    those crediting it, a sum over no entries counting as zero; on an
    account without entries it returns zero; and after the single
    paycheck entry of 1000 from "salary" to "cash" the balance of "cash"
    is 1000 and that of "salary" is -1000. *)
Theorem get_account_balance_spec :
  (forall st n, get_account_balance st n = Ok (balance st n, st))
  /\ (forall st n, debits st n = [] -> credits st n = [] ->
      get_account_balance st n = Ok (0, st))
  /\ (get_account_balance alice_paid "cash" = Ok (1000, alice_paid)
      /\ get_account_balance alice_paid "salary" = Ok (-1000, alice_paid)).
Proof.
  split; [exact get_account_balance_eq | split].
  - intros st n Hd Hc. rewrite get_account_balance_eq.
    unfold balance. now rewrite Hd, Hc.
  - split; reflexivity.
Qed.

Lemma get_account_balance_spec_witness :
  get_account_balance alice_books "cash" = Ok (0, alice_books).
Proof.
  apply (proj1 (proj2 get_account_balance_spec) alice_books "cash"%string);
    reflexivity.
Defined.

(** * The identity context *)

Lemma first_by_email users u :
  NoDup (map UserModel.email users) -> In u users ->
  first (fun v => (UserModel.email v =? UserModel.email u)%string) users
  = Some u.
Proof.
  unfold first.
  induction users as [| v users IH]; simpl; intros Hnd Hin; [contradiction |].
  inversion Hnd as [| ? ? Hnin Hnd']; subst.
  destruct Hin as [-> | Hin]; [now rewrite String.eqb_refl |].
  destruct (UserModel.email v =? UserModel.email u)%string eqn:E.
  - apply String.eqb_eq in E. exfalso. apply Hnin. rewrite E.
    now apply in_map.
  - now apply IH.
Qed.

(** * The account registry *)

Lemma account_clash_true st row :
  account_clash st row = true <->
  exists a u, In a (account st)
              /\ AccountModel.name a = AccountModel.name row
              /\ AccountModel.user_id a = Some u
              /\ AccountModel.user_id row = Some u.
Proof.
  unfold account_clash. rewrite existsb_exists. split.
  - intros (a & Hin & H). apply andb_true_iff in H as [Hn Hu].
    apply String.eqb_eq in Hn.
    destruct (AccountModel.user_id a) as [x |] eqn:Ea; [| discriminate].
    destruct (AccountModel.user_id row) as [y |] eqn:Er; [| discriminate].
    apply Z.eqb_eq in Hu. subst y. now exists a, x.
  - intros (a & u & Hin & Hn & Ha & Hr). exists a. split; [assumption |].
    rewrite Ha, Hr, Hn, String.eqb_refl, Z.eqb_refl. reflexivity.
Qed.

(** C5. With an identity [u] established, [create_account] is refused by
    the unique constraint when [u] already has an account of that name, and
    otherwise, also when only other users have one of that name, inserts a
    new account owned by [u]. *)
Theorem create_account_spec st u acc :
  current_uid st = Some u ->
  ((exists a, In a (account st)
              /\ AccountModel.user_id a = Some u
              /\ AccountModel.name a = AccountIn.name acc) ->
   create_account st acc = Raise IntegrityError)
  /\ ((forall a, In a (account st) -> AccountModel.user_id a = Some u ->
                 AccountModel.name a <> AccountIn.name acc) ->
      create_account st acc
      = Ok (tt, insert_account st
                  (AccountModel.mk (account_seq st) (Some u)
                     (AccountIn.name acc) (AccountIn.description acc)
                     (AccountIn.type acc)))).
Proof.
  intros Hu. unfold create_account. rewrite Hu. split.
  - intros (a & Hin & Ha & Hn).
    destruct (account_clash st _) eqn:E; [reflexivity |].
    assert (account_clash st
              (AccountModel.mk (account_seq st) (Some u) (AccountIn.name acc)
                 (AccountIn.description acc) (AccountIn.type acc)) = true)
      as H; [| congruence].
    apply account_clash_true. now exists a, u.
  - intros Hno.
    destruct (account_clash st _) eqn:E; [| reflexivity].
    apply account_clash_true in E as (a & v & Hin & Hn & Ha & Hv).
    simpl in Hn, Hv. injection Hv as <-. now destruct (Hno a Hin Ha).
Qed.

Lemma create_account_spec_witness :
  create_account alice_books cash = Raise IntegrityError
  /\ create_account two_users (AccountIn.mk "savings" "mine" "asset")
     = Ok (tt, insert_account two_users
                 (AccountModel.mk 4 (Some 1) "savings" "mine" "asset")).
Proof.
  assert (Ha : current_uid alice_books = Some 1) by (vm_compute; reflexivity).
  assert (Ht : current_uid two_users = Some 1) by (vm_compute; reflexivity).
  split.
  - apply (proj1 (create_account_spec alice_books 1 cash Ha)).
    exists (AccountModel.mk 1 (Some 1) "cash" "wallet" "asset").
    vm_compute. auto.
  - pose proof (proj2 (create_account_spec two_users 1
                         (AccountIn.mk "savings" "mine" "asset") Ht)) as H.
    simpl in H. apply H.
    intros a Hin. vm_compute in Hin.
    destruct Hin as [<- | [<- | [<- | []]]]; intros Hu Hn;
      vm_compute in Hu, Hn; discriminate.
Defined.

(** * The entry ledger: adding *)

(** What [add_entry] leaves behind. *)
Lemma add_entry_inv st e st' :
  add_entry st e = Ok (tt, st') ->
  exists new ids,
    resolve_tags st e = (new, ids)
    /\ app_user st' = app_user st
    /\ account st' = account st
    /\ current_uid st' = current_uid st
    /\ tag st' = tag st ++ new
    /\ entry st' = entry st ++ [entry_m st e]
    /\ entry_tag st'
       = entry_tag st
         ++ link_tags (current_uid st) (entry_seq st) ids (entry_tag_seq st).
Proof.
  unfold add_entry.
  destruct (resolve_tags st e) as [new ids].
  intros H. injection H as <-. exists new, ids. repeat split.
Qed.

(** [add_entry] raises nothing, whatever it is given. *)
Lemma add_entry_ok st e : exists st', add_entry st e = Ok (tt, st').
Proof.
  unfold add_entry.
  destruct (resolve_tags st e) as [new ids].
  eexists. reflexivity.
Qed.

Lemma has_name_ext st st' r n :
  account st' = account st -> has_name st' r n = has_name st r n.
Proof. intros H. unfold has_name. now rewrite H. Qed.

Lemma total_app l m : total (l ++ m) = total l + total m.
Proof.
  unfold total. induction l as [| x l IH]; simpl; [reflexivity |].
  rewrite IH. lia.
Qed.

Lemma owned_entry_m st st' e :
  current_uid st' = current_uid st -> owned st' (entry_m st e) = true.
Proof. intros H. unfold owned. rewrite H. apply opt_eqb_refl. Qed.

Lemma add_entry_debits st e st' n :
  add_entry st e = Ok (tt, st') ->
  total (map EntryModel.amount (debits st' n))
  = total (map EntryModel.amount (debits st n))
    + share st (EntryModel.debit_account_id (entry_m st e)) n e.
Proof.
  intros H. apply add_entry_inv in H
    as (new & ids & _ & _ & Ha & Hu & _ & He & _).
  unfold debits, share. rewrite He, filter_app, map_app, total_app.
  f_equal.
  - f_equal. f_equal. apply filter_ext. intros x. unfold owned.
    now rewrite Hu, (has_name_ext st st' _ _ Ha).
  - cbn [filter]. rewrite (owned_entry_m st st' e Hu).
    rewrite (has_name_ext st st' _ _ Ha). cbn [andb].
    destruct (has_name st _ n); simpl; lia.
Qed.

Lemma add_entry_credits st e st' n :
  add_entry st e = Ok (tt, st') ->
  total (map EntryModel.amount (credits st' n))
  = total (map EntryModel.amount (credits st n))
    + share st (EntryModel.credit_account_id (entry_m st e)) n e.
Proof.
  intros H. apply add_entry_inv in H
    as (new & ids & _ & _ & Ha & Hu & _ & He & _).
  unfold credits, share. rewrite He, filter_app, map_app, total_app.
  f_equal.
  - f_equal. f_equal. apply filter_ext. intros x. unfold owned.
    now rewrite Hu, (has_name_ext st st' _ _ Ha).
  - cbn [filter]. rewrite (owned_entry_m st st' e Hu).
    rewrite (has_name_ext st st' _ _ Ha). cbn [andb].
    destruct (has_name st _ n); simpl; lia.
Qed.

(** C2. An account name that resolves to nothing does not stop
    [add_entry]: the entry is stored with a null reference on that side,
    after which the listing of the owner's entries raises.  A name that
    only another user has is resolved to that user's account. *)
Theorem add_entry_unknown_account :
  (exists st',
     add_entry alice_books unknown_credit = Ok (tt, st')
     /\ entry st'
        = [EntryModel.mk 1 (Some 1) "bob" "2024-01-01" None (Some 1) 1000
             "paycheck"]
     /\ list_entries st' None None = Raise AttributeError)
  /\ (exists st',
        add_entry two_users into_savings = Ok (tt, st')
        /\ map EntryModel.debit_account_id (entry st') = [Some 1]
        /\ option_map AccountModel.user_id (account_by_id st' (Some 1))
           = Some (Some 2)
        /\ current_uid st' = Some 1).
Proof.
  split; eexists; repeat split.
Qed.

(** C6. The tag of an entry is looked up by its text among the tags of
    all users: Alice's entry tagged "groceries" is linked to the tag Carol
    owns, and no tag owned by Alice is created. *)
Theorem add_entry_foreign_tag :
  exists st',
    add_entry two_users tagged_paycheck = Ok (tt, st')
    /\ current_uid st' = Some 1
    /\ tag st' = [TagModel.mk 1 (Some 2) "groceries"]
    /\ entry_tag st' = [EntryTagModel.mk 1 (Some 1) (Some 1) (Some 1)]
    /\ map (tag_of st') (entry_tag st')
       = [Some (TagModel.mk 1 (Some 2) "groceries")].
Proof.
  eexists; repeat split.
Qed.

(** * Comprehensions that may raise *)

Lemma traverse_Forall2 {A B} (f : A -> result B) l ys :
  traverse f l = Ok ys <-> Forall2 (fun x y => f x = Ok y) l ys.
Proof.
  revert ys. induction l as [| x l IH]; simpl; intros ys.
  - split; intros H; [injection H as <-; constructor | now inversion H].
  - destruct (f x) as [y |] eqn:Ex; simpl.
    + destruct (traverse f l) as [zs |] eqn:El; simpl.
      * split; intros H.
        -- injection H as <-. constructor; [assumption | now apply IH].
        -- inversion H as [| ? y' ? zs' Hy Hzs]; subst.
           apply IH in Hzs. congruence.
      * split; intros H; [discriminate |].
        inversion H as [| ? y' ? zs' Hy Hzs]; subst.
        apply IH in Hzs. discriminate.
    + split; intros H; [discriminate |].
      inversion H as [| ? y' ? zs' Hy Hzs]; subst. congruence.
Qed.

Lemma traverse_In {A B} (f : A -> result B) l ys y :
  traverse f l = Ok ys -> In y ys -> exists x, In x l /\ f x = Ok y.
Proof.
  intros H. apply traverse_Forall2 in H.
  induction H as [| x y' l ys Hxy H IH]; simpl; intros Hin; [contradiction |].
  destruct Hin as [<- | Hin]; [now exists x; auto |].
  destruct (IH Hin) as (x' & Hx' & Hf). exists x'. auto.
Qed.

Lemma traverse_app {A B} (f : A -> result B) l m ys zs :
  traverse f l = Ok ys -> traverse f m = Ok zs ->
  traverse f (l ++ m) = Ok (ys ++ zs).
Proof.
  rewrite !traverse_Forall2. apply Forall2_app.
Qed.

Lemma traverse_ext_in {A B} (f g : A -> result B) l :
  (forall x, In x l -> f x = g x) -> traverse f l = traverse g l.
Proof.
  induction l as [| x l IH]; simpl; intros H; [reflexivity |].
  rewrite (H x (or_introl eq_refl)), IH; auto.
Qed.

Lemma traverse_filter {A B} (f : A -> result B) p q l ys :
  traverse f l = Ok ys ->
  (forall x y, In x l -> f x = Ok y -> q y = p x) ->
  traverse f (filter p l) = Ok (filter q ys).
Proof.
  intros H. apply traverse_Forall2 in H.
  induction H as [| x y l ys Hxy H IH]; simpl; intros Hpq; [reflexivity |].
  rewrite (Hpq x y (or_introl eq_refl) Hxy).
  assert (IH' : traverse f (filter p l) = Ok (filter q ys)) by (apply IH; eauto).
  destruct (p x); simpl; rewrite ?Hxy, IH'; reflexivity.
Qed.

Lemma traverse_total {A B} (f : A -> result B) l :
  (forall x, In x l -> exists y, f x = Ok y) -> exists ys, traverse f l = Ok ys.
Proof.
  induction l as [| x l IH]; simpl; intros H; [now exists [] |].
  destruct (H x (or_introl eq_refl)) as [y ->].
  destruct IH as [ys ->]; [eauto |]. simpl. now exists (y :: ys).
Qed.

Lemma traverse_raise {A B} (f : A -> result B) l x :
  traverse f l = Raise x -> exists a, In a l /\ f a = Raise x.
Proof.
  induction l as [| a l IH]; simpl; [discriminate |].
  destruct (f a) as [y |] eqn:Ea; simpl.
  - destruct (traverse f l) as [ys |]; simpl; [discriminate |].
    intros H. destruct (IH H) as (b & Hb & Hf). exists b. auto.
  - intros H. injection H as <-. exists a. auto.
Qed.

Lemma attr_raise {A B} (o : option A) (f : A -> B) x :
  attr o f = Raise x -> x = AttributeError.
Proof. destruct o; simpl; congruence. Qed.

(** * The entry ledger: listing *)

Lemma filter_true {A} (l : list A) : filter (fun _ => true) l = l.
Proof. induction l as [| x l IH]; simpl; congruence. Qed.

Lemma filter_if_eq {A} arg (p : string -> A -> bool) rows :
  filter_if arg p rows = filter (fun x => restricts arg (fun n => p n x)) rows.
Proof.
  unfold filter_if, restricts, truthy. destruct arg as [n |].
  - destruct (n =? "")%string; simpl; [now rewrite filter_true | reflexivity].
  - now rewrite filter_true.
Qed.

(** The rows of a listing are the rows of the table that pass, in table
    order. *)
Lemma query_entries_filter st dr cr :
  query_entries st dr cr = filter (passes st dr cr) (entry st).
Proof.
  unfold query_entries. rewrite !filter_if_eq, !filter_andb.
  apply filter_ext. intros e. unfold passes, owned. apply andb_assoc.
Qed.

(** With distinct account keys, a side matches a name exactly when the
    account the relationship loads carries that name. *)
Lemma has_name_side st r n :
  NoDup (map AccountModel.id (account st)) ->
  has_name st r n = side_named (account_by_id st r) n.
Proof.
  unfold has_name, account_by_id, first. destruct r as [i |]; [| reflexivity].
  induction (account st) as [| a l IH]; simpl; intros Hnd; [reflexivity |].
  inversion Hnd as [| ? ? Hnin Hnd']; subst.
  destruct (AccountModel.id a =? i) eqn:E; simpl.
  - destruct (AccountModel.name a =? n)%string; [reflexivity |].
    apply Z.eqb_eq in E. subst i. apply not_true_is_false. intros H.
    apply existsb_exists in H as (b & Hb & H).
    apply andb_true_iff in H as [H _]. apply Z.eqb_eq in H.
    apply Hnin. rewrite <- H. now apply in_map.
  - now apply IH.
Qed.

Lemma passes_selected st dr cr e :
  wf st -> passes st dr cr e = selected st dr cr e.
Proof.
  intros Hwf. unfold passes, selected, restricts, debit_account, credit_account.
  destruct dr as [d |], cr as [c |];
    rewrite ?(has_name_side st _ _ (wf_account_ids st Hwf)); reflexivity.
Qed.

Lemma entry_record_inv st e r :
  entry_record st e = Ok r ->
  exists c d ts,
    credit_account st e = Some c /\ debit_account st e = Some d
    /\ traverse (fun et => attr (tag_of st et) TagModel.tag) (entry_tags st e)
       = Ok ts
    /\ r = EntrySchema.load (EntryModel.id e) (EntryModel.when e)
             (EntryModel.description e) (AccountModel.name c)
             (AccountModel.name d) (EntryModel.amount e) (EntryModel.who e) ts.
Proof.
  unfold entry_record.
  destruct (credit_account st e) as [c |]; simpl; [| discriminate].
  destruct (debit_account st e) as [d |]; simpl; [| discriminate].
  destruct (traverse _ (entry_tags st e)) as [ts |]; simpl; [| discriminate].
  intros H. injection H as <-. now exists c, d, ts.
Qed.

Lemma entry_record_raise st e x :
  entry_record st e = Raise x -> x = AttributeError.
Proof.
  unfold entry_record.
  destruct (credit_account st e) as [c |]; simpl; [| congruence].
  destruct (debit_account st e) as [d |]; simpl; [| congruence].
  destruct (traverse _ (entry_tags st e)) as [ts | y] eqn:E; simpl;
    [discriminate |].
  intros H. injection H as <-.
  apply traverse_raise in E as (et & _ & E). now apply attr_raise in E.
Qed.

Lemma list_entries_inv st dr cr l st' :
  list_entries st dr cr = Ok (l, st') ->
  st' = st /\ traverse (entry_record st) (query_entries st dr cr) = Ok l.
Proof.
  unfold list_entries.
  destruct (traverse _ (query_entries st dr cr)) as [l' |]; simpl;
    [| discriminate].
  intros H. injection H as <- <-. auto.
Qed.

Lemma list_entries_raise st dr cr x :
  list_entries st dr cr = Raise x -> x = AttributeError.
Proof.
  unfold list_entries.
  destruct (traverse _ (query_entries st dr cr)) as [l' | y] eqn:E; simpl;
    [discriminate |].
  intros H. injection H as <-.
  apply traverse_raise in E as (row & _ & E).
  now apply entry_record_raise in E.
Qed.

Lemma restricts_given n p : n <> ""%string -> restricts (Some n) p = p n.
Proof.
  intros H. unfold restricts. destruct (n =? "")%string eqn:E; [| reflexivity].
  apply String.eqb_eq in E. contradiction.
Qed.

(** C7, as the code has it.  A listing is about exactly the entries of
    the current identity, in table order; a debit name that is given and
    not the empty string keeps only the entries whose debit account has
    that name, a credit name likewise, and both together keep the entries
    that satisfy both; so every record listed under a debit filter has that
    name on its debit side.  The listing returns whenever the accounts and
    tags of the entries it is about can be loaded. *)
Theorem list_entries_spec st dr cr :
  wf st ->
  query_entries st dr cr = filter (selected st dr cr) (entry st)
  /\ (forall l,
        list_entries st dr cr = Ok (l, st) ->
        Forall2 (fun e r => entry_record st e = Ok r)
          (filter (selected st dr cr) (entry st)) l
        /\ (forall r n, In r l -> dr = Some n -> n <> ""%string ->
                        EntrySchema.debit_account r = n)
        /\ (forall r n, In r l -> cr = Some n -> n <> ""%string ->
                        EntrySchema.credit_account r = n))
  /\ ((forall e, In e (entry st) -> selected st dr cr e = true ->
                 exists r, entry_record st e = Ok r) ->
      exists l, list_entries st dr cr = Ok (l, st)).
Proof.
  intros Hwf.
  assert (Hq : query_entries st dr cr = filter (selected st dr cr) (entry st)).
  { rewrite query_entries_filter. apply filter_ext. intros e.
    now apply passes_selected. }
  split; [assumption | split].
  - intros l H. apply list_entries_inv in H as [_ H]. rewrite Hq in H.
    split; [now apply traverse_Forall2 | split].
    + intros r n Hr -> Hn.
      destruct (traverse_In _ _ _ _ H Hr) as (e & He & Hrec).
      apply filter_In in He as [_ He]. unfold selected in He.
      apply andb_true_iff in He as [He _]. apply andb_true_iff in He as [_ He].
      rewrite restricts_given in He by assumption.
      apply entry_record_inv in Hrec as (c & d & ts & _ & Hd & _ & ->).
      rewrite Hd in He. simpl in *. now apply String.eqb_eq.
    + intros r n Hr -> Hn.
      destruct (traverse_In _ _ _ _ H Hr) as (e & He & Hrec).
      apply filter_In in He as [_ He]. unfold selected in He.
      apply andb_true_iff in He as [_ He].
      rewrite restricts_given in He by assumption.
      apply entry_record_inv in Hrec as (c & d & ts & Hc & _ & _ & ->).
      rewrite Hc in He. simpl in *. now apply String.eqb_eq.
  - intros Hall. unfold list_entries. rewrite Hq.
    destruct (traverse_total (entry_record st)
                (filter (selected st dr cr) (entry st))) as [l ->].
    + intros e He. apply filter_In in He as [He Hs]. auto.
    + now exists l.
Qed.

Lemma list_entries_spec_witness :
  exists l, list_entries alice_paid (Some "cash"%string) None = Ok (l, alice_paid).
Proof.
  apply (proj2 (proj2 (list_entries_spec alice_paid (Some "cash"%string) None
                         (run_wf _ _ (session_wf _))))).
  intros e He _. vm_compute in He. destruct He as [<- | []].
  eexists. vm_compute. reflexivity.
Defined.

(** The claim C7 as the specification words it fails on the empty
    string: given as the debit name, it restricts nothing, and the
    paycheck debiting "cash" is listed. *)
Lemma list_entries_empty_name :
  exists r,
    list_entries alice_paid (Some ""%string) None = Ok ([r], alice_paid)
    /\ EntrySchema.debit_account r = "cash"%string
    /\ EntrySchema.debit_account r <> ""%string.
Proof.
  eexists. split; [vm_compute; reflexivity | split; [reflexivity | discriminate]].
Qed.

(** * Calls made before an identity is set *)

Lemma query_entries_In st dr cr e :
  In e (query_entries st dr cr) ->
  In e (entry st) /\ EntryModel.user_id e = current_uid st.
Proof.
  rewrite query_entries_filter. intros H. apply filter_In in H as [Hin H].
  split; [assumption |]. unfold passes, owned in H.
  apply andb_true_iff in H as [H _]. apply andb_true_iff in H as [H _].
  now apply opt_eqb_eq.
Qed.

Lemma list_entries_In st dr cr l r :
  list_entries st dr cr = Ok (l, st) -> In r l ->
  exists e, In e (entry st) /\ EntryModel.user_id e = current_uid st
            /\ EntryModel.id e = EntrySchema.id r.
Proof.
  intros H Hr. apply list_entries_inv in H as [_ H].
  destruct (traverse_In _ _ _ _ H Hr) as (e & He & Hrec).
  apply query_entries_In in He as [Hin Hu].
  apply entry_record_inv in Hrec as (c & d & ts & _ & _ & _ & ->).
  exists e. auto.
Qed.

Lemma delete_entry_absent st i :
  (forall e, In e (entry st) -> EntryModel.user_id e = current_uid st ->
             EntryModel.id e <> i) ->
  delete_entry st i = Ok (false, st).
Proof.
  intros Hno. unfold delete_entry.
  destruct (first _ (entry st)) as [e |] eqn:E; [| reflexivity].
  apply first_some in E as [Hin H]. apply andb_true_iff in H as [Hu Hi].
  apply opt_eqb_eq in Hu. apply Z.eqb_eq in Hi. now destruct (Hno e Hin Hu).
Qed.

Lemma delete_entry_present st i e :
  In e (entry st) -> EntryModel.user_id e = current_uid st ->
  EntryModel.id e = i ->
  exists e', In e' (entry st) /\ EntryModel.user_id e' = current_uid st
             /\ EntryModel.id e' = i
             /\ delete_entry st i = Ok (true, without_entry st e').
Proof.
  intros Hin Hu Hi. unfold delete_entry.
  destruct (first _ (entry st)) as [e' |] eqn:E.
  - apply first_some in E as [Hin' H]. apply andb_true_iff in H as [Hu' Hi'].
    apply opt_eqb_eq in Hu'. apply Z.eqb_eq in Hi'. exists e'. auto.
  - apply first_none with (x := e) in E; [| assumption].
    rewrite Hu, opt_eqb_refl, Hi, Z.eqb_refl in E. discriminate.
Qed.

(** The claim C9 as the specification words it fails on a fresh object:
    [create_account] returns and stores an account without an owner. *)
Lemma create_account_without_identity :
  current_uid init = None
  /\ create_account init cash
     = Ok (tt, insert_account init
                 (AccountModel.mk 1 None "cash" "wallet" "asset"))
  /\ forall x, create_account init cash <> Raise x.
Proof.
  split; [reflexivity | split; [reflexivity | discriminate]].
Qed.

(** * The entry ledger: deleting *)

Lemma NoDup_key_inj {A} (key : A -> Z) rows x y :
  NoDup (map key rows) -> In x rows -> In y rows -> key x = key y -> x = y.
Proof.
  induction rows as [| r rows IH]; simpl; intros Hnd Hx Hy Hk; [contradiction |].
  inversion Hnd as [| ? ? Hnin Hnd']; subst.
  destruct Hx as [-> | Hx], Hy as [-> | Hy]; auto.
  - exfalso. apply Hnin. rewrite Hk. now apply in_map.
  - exfalso. apply Hnin. rewrite <- Hk. now apply in_map.
Qed.

Lemma without_entry_entries st e x :
  In x (entry (without_entry st e)) <->
  In x (entry st) /\ EntryModel.id x <> EntryModel.id e.
Proof.
  simpl. rewrite filter_In, negb_true_iff, Z.eqb_neq. reflexivity.
Qed.

(** No association of the deleted entry is left. *)
Lemma without_entry_links st e et :
  In et (entry_tag (without_entry st e)) ->
  In et (entry_tag st)
  /\ EntryTagModel.entry_id et <> Some (EntryModel.id e).
Proof.
  simpl. rewrite filter_In, negb_true_iff. intros [Hin Hgone].
  split; [assumption |]. intros Heq.
  assert (existsb (Z.eqb (EntryTagModel.id et))
            (map EntryTagModel.id (entry_tags st e)) = true) as H;
    [| congruence].
  apply existsb_exists. exists (EntryTagModel.id et).
  split; [| apply Z.eqb_refl]. apply in_map. apply filter_In.
  split; [assumption |]. rewrite Heq. apply opt_eqb_refl.
Qed.

(** With distinct association keys, the associations of the other entries
    stay. *)
Lemma without_entry_links_kept st e et :
  NoDup (map EntryTagModel.id (entry_tag st)) ->
  In et (entry_tag st) ->
  EntryTagModel.entry_id et <> Some (EntryModel.id e) ->
  In et (entry_tag (without_entry st e)).
Proof.
  intros Hnd Hin Hne. simpl. apply filter_In. split; [assumption |].
  apply negb_true_iff, not_true_is_false. intros H.
  apply existsb_exists in H as (k & Hk & Heq). apply Z.eqb_eq in Heq.
  apply in_map_iff in Hk as (et' & Hid & Het').
  apply filter_In in Het' as [Hin' Hent]. apply opt_eqb_eq in Hent.
  assert (et' = et) as -> by (eapply NoDup_key_inj; eauto; congruence).
  contradiction.
Qed.

Lemma without_entry_entry_tags st e x :
  NoDup (map EntryTagModel.id (entry_tag st)) ->
  EntryModel.id x <> EntryModel.id e ->
  entry_tags (without_entry st e) x = entry_tags st x.
Proof.
  intros Hnd Hne. unfold entry_tags at 1. cbn [entry_tag without_entry].
  rewrite filter_andb. unfold entry_tags at 2. apply filter_ext_in.
  intros et Hin.
  destruct (opt_eqb (EntryTagModel.entry_id et) (Some (EntryModel.id x)))
    eqn:E; [| apply andb_false_r].
  rewrite andb_true_r. apply opt_eqb_eq in E.
  assert (In et (entry_tag (without_entry st e))) as H.
  { apply without_entry_links_kept; auto. rewrite E. congruence. }
  simpl in H. apply filter_In in H as [_ H]. exact H.
Qed.

Lemma without_entry_record st e x :
  NoDup (map EntryTagModel.id (entry_tag st)) ->
  EntryModel.id x <> EntryModel.id e ->
  entry_record (without_entry st e) x = entry_record st x.
Proof.
  intros Hnd Hne. unfold entry_record.
  rewrite without_entry_entry_tags by assumption. reflexivity.
Qed.

Lemma without_entry_query st e dr cr :
  query_entries (without_entry st e) dr cr
  = filter (fun x => negb (EntryModel.id x =? EntryModel.id e))
      (query_entries st dr cr).
Proof.
  rewrite !query_entries_filter. cbn [entry without_entry].
  rewrite !filter_andb. apply filter_ext. intros x. apply andb_comm.
Qed.

(** C4. When the current identity has no entry of the given key,
    [delete_entry] returns [False] and changes nothing.  When it has one,
    [delete_entry] returns [True] and the state it leaves has neither the
    entry nor any association of it, while the tags, the other entries and
    (with distinct keys) the other associations are all kept; a listing
    then no longer shows the entry, and shows the others as before; and
    deleting the same key again returns [False]. *)
Theorem delete_entry_spec st i :
  ((forall e, In e (entry st) -> EntryModel.user_id e = current_uid st ->
              EntryModel.id e <> i) ->
   delete_entry st i = Ok (false, st))
  /\ (forall e,
        In e (entry st) -> EntryModel.user_id e = current_uid st ->
        EntryModel.id e = i ->
        exists st',
          delete_entry st i = Ok (true, st')
          /\ tag st' = tag st
          /\ account st' = account st
          /\ app_user st' = app_user st
          /\ current_uid st' = current_uid st
          /\ (forall x, In x (entry st') <->
                        In x (entry st) /\ EntryModel.id x <> i)
          /\ (forall et, In et (entry_tag st') ->
                In et (entry_tag st) /\ EntryTagModel.entry_id et <> Some i)
          /\ (wf st -> forall et, In et (entry_tag st) ->
                EntryTagModel.entry_id et <> Some i -> In et (entry_tag st'))
          /\ (forall dr cr l, list_entries st' dr cr = Ok (l, st') ->
                ~ In i (map EntrySchema.id l))
          /\ (wf st -> forall dr cr l, list_entries st dr cr = Ok (l, st) ->
                list_entries st' dr cr
                = Ok (filter (fun r => negb (EntrySchema.id r =? i)) l, st'))
          /\ delete_entry st' i = Ok (false, st')).
Proof.
  split; [apply delete_entry_absent |].
  intros e Hin Hu Hi.
  destruct (delete_entry_present st i e Hin Hu Hi)
    as (e' & Hin' & Hu' & Hi' & Hdel).
  exists (without_entry st e'). clear e Hin Hu Hi. subst i.
  split; [assumption |]. do 4 (split; [reflexivity |]).
  split; [| split; [| split; [| split; [| split]]]].
  - apply without_entry_entries.
  - apply without_entry_links.
  - intros Hwf et. apply without_entry_links_kept. now destruct Hwf.
  - intros dr cr l H Hmem. apply in_map_iff in Hmem as (r & Hr & Hl).
    destruct (list_entries_In _ _ _ _ _ H Hl) as (x & Hx & _ & Hid).
    apply without_entry_entries in Hx as [_ Hx]. congruence.
  - intros Hwf dr cr l H. apply list_entries_inv in H as [_ H].
    unfold list_entries. rewrite without_entry_query.
    rewrite (traverse_ext_in _ (entry_record st)).
    + erewrite traverse_filter; [reflexivity | eassumption |].
      intros x r _ Hrec.
      apply entry_record_inv in Hrec as (c & d & ts & _ & _ & _ & ->).
      reflexivity.
    + intros x Hx. apply filter_In in Hx as [_ Hx].
      apply negb_true_iff, Z.eqb_neq in Hx.
      apply without_entry_record; [now destruct Hwf | assumption].
  - apply delete_entry_absent. intros x Hx _.
    apply without_entry_entries in Hx as [_ Hx]. assumption.
Qed.

Lemma delete_entry_spec_witness :
  delete_entry alice_tagged 7 = Ok (false, alice_tagged)
  /\ exists st',
       delete_entry alice_tagged 1 = Ok (true, st')
       /\ tag st' = tag alice_tagged
       /\ delete_entry st' 1 = Ok (false, st').
Proof.
  split.
  - apply (proj1 (delete_entry_spec alice_tagged 7)).
    intros e He _. vm_compute in He. destruct He as [<- | []]. discriminate.
  - destruct (proj2 (delete_entry_spec alice_tagged 1)
                (EntryModel.mk 1 (Some 1) "bob" "2024-01-01" (Some 3) (Some 2)
                   1000 "paycheck"))
      as (st' & Hdel & Htag & _ & _ & _ & _ & _ & _ & _ & _ & Hagain).
    + vm_compute. auto.
    + reflexivity.
    + reflexivity.
    + exists st'. auto.
Defined.

(** * Adding, then listing *)

Lemma first_exists {A} (p : A -> bool) rows x :
  In x rows -> p x = true -> exists y, first p rows = Some y.
Proof.
  intros Hin Hp. destruct (first p rows) as [y |] eqn:E; [now exists y |].
  apply first_none with (x := x) in E; [congruence | assumption].
Qed.

Lemma traverse_impl {A B} (f g : A -> result B) l ys :
  traverse f l = Ok ys ->
  (forall x y, In x l -> f x = Ok y -> g x = Ok y) ->
  traverse g l = Ok ys.
Proof.
  rewrite !traverse_Forall2. intros H.
  induction H as [| x y l ys Hxy H IH]; intros Himp; constructor.
  - apply Himp; [now left | assumption].
  - apply IH. intros x' y' Hin. apply Himp. now right.
Qed.

(** Every name of the loop is paired with the key of a tag of that text,
    found or new. *)
Lemma tag_loop_named st att made names next new ids :
  tag_loop st att made names next = (new, ids) ->
  Forall2 (fun n i => exists t, In t (tag st ++ new) /\ TagModel.id t = i
                                /\ TagModel.tag t = n) names ids.
Proof.
  revert att made next new ids.
  induction names as [| n names IH]; simpl; intros att made next new ids H.
  - injection H as <- <-. constructor.
  - destruct (first _ _) as [t |] eqn:Et.
    + destruct (tag_loop st true made names next) as [new' ids'] eqn:E.
      injection H as <- <-. constructor; [| eauto].
      apply first_some in Et as [Hin Ht]. apply String.eqb_eq in Ht.
      destruct (tag_loop_prefix _ _ _ _ _ _ _ E) as [more ->].
      exists t. split; [| auto].
      apply in_app_or in Hin as [Hin | Hin]; apply in_or_app; [now left |].
      right. apply in_or_app. left. now destruct att.
    + destruct (tag_loop st att _ names (next + 1)) as [new' ids'] eqn:E.
      injection H as <- <-. constructor; [| eauto].
      destruct (tag_loop_prefix _ _ _ _ _ _ _ E) as [more ->].
      exists (TagModel.mk next (current_uid st) n).
      split; [| split; reflexivity].
      apply in_or_app. right. apply in_or_app. left.
      apply in_or_app. right. now left.
Qed.

Lemma resolve_tags_named st e new ids :
  resolve_tags st e = (new, ids) ->
  Forall2 (fun n i => exists t, In t (tag st ++ new) /\ TagModel.id t = i
                                /\ TagModel.tag t = n) (tag_names e) ids.
Proof. apply tag_loop_named. Qed.

(** Reading the tag texts off the new associations gives the submitted
    names back. *)
Lemma link_tags_texts st' uid eid names ids next :
  NoDup (map TagModel.id (tag st')) ->
  Forall2 (fun n i => exists t, In t (tag st') /\ TagModel.id t = i
                                /\ TagModel.tag t = n) names ids ->
  traverse (fun et => attr (tag_of st' et) TagModel.tag)
    (link_tags uid eid ids next) = Ok names.
Proof.
  intros Hnd H. revert next.
  induction H as [| n i names ids (t & Hin & Hi & Hn) H IH]; intros next;
    simpl; [reflexivity |].
  unfold tag_of at 1. cbn [EntryTagModel.tag_id]. subst i.
  change (fun t0 => TagModel.id t0 =? TagModel.id t)
    with (by_key TagModel.id (TagModel.id t)).
  rewrite first_by_key by assumption. simpl. rewrite IH. simpl.
  now rewrite Hn.
Qed.

Lemma filter_nil_in {A} (p : A -> bool) l :
  (forall x, In x l -> p x = false) -> filter p l = [].
Proof.
  induction l as [| x l IH]; simpl; intros H; [reflexivity |].
  rewrite (H x (or_introl eq_refl)). auto.
Qed.

Lemma filter_all_in {A} (p : A -> bool) l :
  (forall x, In x l -> p x = true) -> filter p l = l.
Proof.
  induction l as [| x l IH]; simpl; intros H; [reflexivity |].
  rewrite (H x (or_introl eq_refl)), IH; auto.
Qed.

Section AddEntry.
Variables (st st' : Database) (e : EntryIn.t).
Hypothesis Hwf : wf st.
Hypothesis Hadd : add_entry st e = Ok (tt, st').

(** The associations of the new entry are the new links. *)
Lemma add_entry_new_tags :
  traverse (fun et => attr (tag_of st' et) TagModel.tag)
    (entry_tags st' (entry_m st e)) = Ok (tag_names e).
Proof.
  pose proof (add_entry_wf _ _ _ Hwf Hadd) as Hwf'.
  destruct (add_entry_inv _ _ _ Hadd)
    as (new & ids & Hres & _ & _ & _ & Htag & _ & Hlinks).
  assert (entry_tags st' (entry_m st e)
          = link_tags (current_uid st) (entry_seq st) ids (entry_tag_seq st))
    as ->.
  { unfold entry_tags. rewrite Hlinks, filter_app.
    rewrite filter_nil_in, filter_all_in; [reflexivity | |].
    - intros et Het. apply link_tags_entry in Het as [-> _].
      apply opt_eqb_refl.
    - intros et Het. destruct (wf_links _ Hwf et Het) as (i & -> & Hi).
      simpl. apply Z.eqb_neq. lia. }
  apply link_tags_texts; [apply Hwf' |].
  rewrite Htag. eapply resolve_tags_named; eassumption.
Qed.

(** The account a side of the new entry loads is the one its name was
    resolved to. *)
Lemma add_entry_side n :
  account_by_id st'
    (option_map AccountModel.id (account_named st n))
  = account_named st n.
Proof.
  destruct (add_entry_inv _ _ _ Hadd) as (_ & _ & _ & _ & Hacc & _).
  destruct (account_named st n) as [a |] eqn:E; [| reflexivity].
  apply account_named_some in E as [Hin _]. unfold account_by_id.
  cbn [option_map].
  rewrite Hacc.
  change (fun a0 => AccountModel.id a0 =? AccountModel.id a)
    with (by_key AccountModel.id (AccountModel.id a)).
  apply first_by_key; [apply Hwf | assumption].
Qed.

(** The record of the new entry, when it can be built, is the submitted
    one. *)
Lemma add_entry_record_inv x :
  entry_record st' (entry_m st e) = Ok x -> x = submitted (entry_seq st) e.
Proof.
  intros H. apply entry_record_inv in H as (c & d & ts & Hc & Hd & Hts & ->).
  rewrite add_entry_new_tags in Hts. injection Hts as <-.
  unfold credit_account, debit_account in Hc, Hd.
  cbn [entry_m EntryModel.credit_account_id EntryModel.debit_account_id]
    in Hc, Hd.
  rewrite add_entry_side in Hc, Hd.
  apply account_named_some in Hc as [_ Hc].
  apply account_named_some in Hd as [_ Hd].
  unfold submitted. cbn. now rewrite Hc, Hd.
Qed.

(** It can be built when both names resolve. *)
Lemma add_entry_record_ok :
  resolves st (EntryIn.debit_account e) ->
  resolves st (EntryIn.credit_account e) ->
  entry_record st' (entry_m st e) = Ok (submitted (entry_seq st) e).
Proof.
  intros Hd Hc.
  destruct (account_named_exists _ _ Hd) as [d' Ed].
  destruct (account_named_exists _ _ Hc) as [c' Ec].
  assert (exists x, entry_record st' (entry_m st e) = Ok x) as [x Hx].
  { unfold entry_record, credit_account, debit_account.
    cbn [entry_m EntryModel.credit_account_id EntryModel.debit_account_id].
    rewrite !add_entry_side, Ed, Ec, add_entry_new_tags. simpl. eauto. }
  rewrite Hx. f_equal. now apply add_entry_record_inv.
Qed.

(** The entries stored before are shown as before. *)
Lemma add_entry_old_record x r :
  In x (entry st) -> entry_record st x = Ok r -> entry_record st' x = Ok r.
Proof.
  intros Hin H.
  destruct (add_entry_inv _ _ _ Hadd)
    as (new & ids & _ & _ & Hacc & _ & Htag & _ & Hlinks).
  apply entry_record_inv in H as (c & d & ts & Hc & Hd & Hts & ->).
  assert (entry_tags st' x = entry_tags st x) as Het.
  { unfold entry_tags. rewrite Hlinks, filter_app.
    rewrite (filter_nil_in _ (link_tags _ _ _ _)); [apply app_nil_r |].
    intros et Het. apply link_tags_entry in Het as [-> _]. simpl.
    apply Z.eqb_neq. pose proof (wf_entry_seq _ Hwf x Hin). lia. }
  unfold entry_record, credit_account, debit_account, account_by_id in *.
  rewrite Hacc, Hc, Hd, Het. simpl.
  rewrite (traverse_impl _ _ _ _ Hts); [reflexivity |].
  intros et t _. unfold tag_of. rewrite Htag.
  destruct (EntryTagModel.tag_id et) as [i |]; [| discriminate].
  destruct (first _ (tag st)) as [t' |] eqn:E; [| discriminate].
  now rewrite (first_app_some _ _ _ _ E).
Qed.

Lemma add_entry_query dr cr :
  query_entries st' dr cr
  = query_entries st dr cr
    ++ (if passes st dr cr (entry_m st e) then [entry_m st e] else []).
Proof.
  destruct (add_entry_inv _ _ _ Hadd)
    as (new & ids & _ & _ & Hacc & Hu & _ & He & _).
  assert (forall x, passes st' dr cr x = passes st dr cr x) as Hp.
  { intros x. unfold passes, owned, has_name. now rewrite Hacc, Hu. }
  rewrite !query_entries_filter, He, filter_app. cbn [filter].
  rewrite Hp. f_equal. now apply filter_ext.
Qed.
End AddEntry.

(** C3. After [add_entry] of [e], any record a listing of the same
    identity shows under the key of the new entry carries the submitted
    who, when, account names, amount, description and tag texts; and when
    both account names resolve, a listing that returned [l] before returns
    [l] followed by that record if the new entry passes the filters. *)
Theorem add_then_list st e st' :
  wf st ->
  add_entry st e = Ok (tt, st') ->
  (forall dr cr l x,
     list_entries st' dr cr = Ok (l, st') -> In x l ->
     EntrySchema.id x = entry_seq st ->
     x = submitted (entry_seq st) e)
  /\ (forall dr cr l,
        resolves st (EntryIn.debit_account e) ->
        resolves st (EntryIn.credit_account e) ->
        list_entries st dr cr = Ok (l, st) ->
        list_entries st' dr cr
        = Ok (l ++ (if passes st dr cr (entry_m st e)
                    then [submitted (entry_seq st) e] else []), st')).
Proof.
  intros Hwf Hadd. split.
  - intros dr cr l x H Hx Hid. apply list_entries_inv in H as [_ H].
    destruct (traverse_In _ _ _ _ H Hx) as (row & Hrow & Hrec).
    assert (row = entry_m st e) as ->.
    { apply query_entries_In in Hrow as [Hrow _].
      destruct (add_entry_inv _ _ _ Hadd) as (_ & _ & _ & _ & _ & _ & _ & He & _).
      rewrite He in Hrow. apply in_app_or in Hrow as [Hrow | [<- | []]];
        [| reflexivity].
      pose proof (wf_entry_seq _ Hwf row Hrow) as Hlt.
      apply entry_record_inv in Hrec as (c & d & ts & _ & _ & _ & ->).
      simpl in Hid. lia. }
    eapply add_entry_record_inv; eassumption.
  - intros dr cr l Hd Hc H. apply list_entries_inv in H as [_ H].
    unfold list_entries. rewrite (add_entry_query st st' e Hadd).
    erewrite traverse_app; [reflexivity | |].
    + eapply traverse_impl; [eassumption |].
      intros x r Hx. apply (add_entry_old_record st st' e Hwf Hadd).
      now apply query_entries_In in Hx as [Hx _].
    + destruct (passes st dr cr (entry_m st e)); [| reflexivity].
      simpl. now rewrite (add_entry_record_ok st st' e Hwf Hadd Hd Hc).
Qed.

Lemma add_then_list_witness :
  list_entries alice_tagged None None
  = Ok ([EntrySchema.load 1 "2024-01-01" "paycheck" "salary" "cash" 1000 "bob"
           ["groceries"%string]], alice_tagged).
Proof.
  assert (Hadd : add_entry two_users tagged_paycheck = Ok (tt, alice_tagged))
    by (vm_compute; reflexivity).
  pose proof (proj2 (add_then_list two_users tagged_paycheck alice_tagged
                       (session_wf _) Hadd) None None []) as H.
  assert (Hd : resolves two_users (EntryIn.debit_account tagged_paycheck)).
  { exists (AccountModel.mk 2 (Some 1) "cash" "wallet" "asset").
    vm_compute. auto. }
  assert (Hc : resolves two_users (EntryIn.credit_account tagged_paycheck)).
  { exists (AccountModel.mk 3 (Some 1) "salary" "job" "income").
    vm_compute. auto. }
  specialize (H Hd Hc eq_refl). rewrite H. vm_compute. reflexivity.
Defined.

(** * Further properties: users *)

Lemma first_app_none {A} (p : A -> bool) rows more :
  first p rows = None -> first p (rows ++ more) = first p more.
Proof.
  unfold first. induction rows as [| r rows IH]; simpl; [reflexivity |].
  destruct (p r); [discriminate | assumption].
Qed.

Lemma first_existsb_false {A} (p : A -> bool) rows :
  existsb p rows = false -> first p rows = None.
Proof.
  unfold first. induction rows as [| r rows IH]; simpl; [reflexivity |].
  destruct (p r); simpl; [discriminate | assumption].
Qed.

Lemma create_user_inv st user st' :
  create_user st user = Ok (tt, st') ->
  first (fun u => (UserModel.email u =? UserIn.email user)%string) (app_user st)
  = None
  /\ st' = insert_user st
             (UserModel.mk (app_user_seq st) (UserIn.email user)
                (UserIn.password user) (UserIn.salt user) (UserIn.name user)
                (UserIn.created user)).
Proof.
  unfold create_user.
  destruct (existsb _ (app_user st)) eqn:E; [discriminate |].
  intros H. injection H as <-. split; [| reflexivity].
  now apply first_existsb_false.
Qed.

(** X1. A user that [create_user] has stored is given back by [get_user]
    under its e-mail address with the submitted fields; when it was
    submitted without a creation date, [get_user] raises on it instead,
    reading [isoformat] off [None].  The look-up of every other address is
    as before. *)
Theorem create_user_get_user st user st' :
  create_user st user = Ok (tt, st') ->
  get_user st' (UserIn.email user)
  = match UserIn.created user with
    | Some d =>
        Ok (Some (UserSchema.load (UserIn.name user) (UserIn.email user)
                    (UserIn.password user) (UserIn.salt user) d), st')
    | None => Raise AttributeError
    end
  /\ forall em, em <> UserIn.email user ->
       value (get_user st' em) = value (get_user st em).
Proof.
  intros H. apply create_user_inv in H as [Hnone ->]. split.
  - unfold get_user. cbn [app_user insert_user].
    rewrite (first_app_none _ _ _ Hnone). unfold first. simpl.
    rewrite String.eqb_refl. now destruct (UserIn.created user).
  - intros em Hne. unfold get_user. cbn [app_user insert_user].
    destruct (first (fun u => (UserModel.email u =? em)%string) (app_user st))
      as [u |] eqn:E.
    + rewrite (first_app_some _ _ _ _ E). now destruct (UserModel.created u).
    + rewrite (first_app_none _ _ _ E). unfold first. simpl.
      destruct (UserIn.email user =? em)%string eqn:Eq; [| reflexivity].
      apply String.eqb_eq in Eq. congruence.
Qed.

Lemma create_user_get_user_witness :
  value (get_user (run init (CreateUser alice)) "alice@example.com")
  = Some (Some (UserSchema.load "alice" "alice@example.com" "pw" "na"
                  "2024-01-01"))
  /\ get_user
       (run init (CreateUser (UserIn.mk "dan" "dan@example.com" "pw" "nd" None)))
       "dan@example.com"
     = Raise AttributeError.
Proof.
  split.
  - assert (H : create_user init alice = Ok (tt, run init (CreateUser alice)))
      by (vm_compute; reflexivity).
    pose proof (proj1 (create_user_get_user init alice _ H)) as G.
    change (UserIn.email alice) with "alice@example.com"%string in G.
    rewrite G. reflexivity.
  - pose (dan := UserIn.mk "dan" "dan@example.com" "pw" "nd" None).
    assert (H : create_user init dan = Ok (tt, run init (CreateUser dan)))
      by (vm_compute; reflexivity).
    exact (proj1 (create_user_get_user init dan _ H)).
Defined.

(** X3. [create_user] refuses an e-mail address that is already stored
    and stores nothing; otherwise it stores the user under the next key,
    leaves the current identity as it is, and a following
    [set_current_user] with that address makes the new user the
    identity. *)
Theorem create_user_spec st user :
  ((exists u, In u (app_user st) /\ UserModel.email u = UserIn.email user) ->
   create_user st user = Raise IntegrityError)
  /\ ((forall u, In u (app_user st) ->
                 UserModel.email u <> UserIn.email user) ->
      exists st',
        create_user st user = Ok (tt, st')
        /\ current_uid st' = current_uid st
        /\ set_current_user st' (UserIn.email user)
           = Ok (tt, with_current_uid st' (Some (app_user_seq st)))).
Proof.
  split.
  - intros (u & Hin & Hem). unfold create_user.
    destruct (existsb _ (app_user st)) eqn:E; [reflexivity |].
    apply first_existsb_false in E.
    apply first_none with (x := u) in E; [| assumption].
    rewrite Hem, String.eqb_refl in E. discriminate.
  - intros Hno. unfold create_user.
    destruct (existsb _ (app_user st)) eqn:E.
    + apply existsb_exists in E as (u & Hin & Hem).
      apply String.eqb_eq in Hem. now destruct (Hno u Hin).
    + eexists. split; [reflexivity |]. split; [reflexivity |].
      apply first_existsb_false in E.
      unfold set_current_user. cbn [app_user insert_user].
      rewrite (first_app_none _ _ _ E). unfold first. simpl.
      now rewrite String.eqb_refl.
Qed.

Lemma create_user_spec_witness :
  create_user alice_books alice = Raise IntegrityError
  /\ exists st', create_user alice_books carol = Ok (tt, st')
                 /\ current_uid st' = Some 1
                 /\ set_current_user st' "carol@example.com"
                    = Ok (tt, with_current_uid st' (Some 2)).
Proof.
  split.
  - apply (proj1 (create_user_spec alice_books alice)).
    exists (UserModel.mk 1 "alice@example.com" "pw" "na" "alice"
              (Some "2024-01-01"%string)).
    vm_compute. auto.
  - destruct (proj2 (create_user_spec alice_books carol))
      as (st' & H1 & H2 & H3).
    + intros u Hin. vm_compute in Hin. destruct Hin as [<- | []]. discriminate.
    + exists st'. split; [assumption |]. split; [rewrite H2; reflexivity |].
      exact H3.
Defined.

(** * Further properties: the account registry *)

Lemma create_account_inv st acc st' :
  create_account st acc = Ok (tt, st') ->
  let row :=
    AccountModel.mk (account_seq st) (current_uid st) (AccountIn.name acc)
      (AccountIn.description acc) (AccountIn.type acc) in
  account_clash st row = false /\ st' = insert_account st row.
Proof.
  unfold create_account. destruct (account_clash st _) eqn:E; [discriminate |].
  intros H. injection H as <-. auto.
Qed.

Lemma create_account_unique_names st acc st' :
  unique_names st -> create_account st acc = Ok (tt, st') -> unique_names st'.
Proof.
  intros Hun H. apply create_account_inv in H as [Hclash ->].
  intros a b u Ha Hb Hua Hub Hn. cbn [account insert_account] in Ha, Hb.
  apply in_app_or in Ha as [Ha | [<- | []]];
    apply in_app_or in Hb as [Hb | [<- | []]]; try reflexivity.
  - eapply Hun; eauto.
  - exfalso. apply not_true_iff_false in Hclash. apply Hclash.
    apply account_clash_true. exists a, u. auto.
  - exfalso. apply not_true_iff_false in Hclash. apply Hclash.
    apply account_clash_true. exists b, u. auto.
Qed.

Lemma run_account st c :
  account (run st c) = account st
  \/ exists acc st', c = CreateAccount acc
                     /\ create_account st acc = Ok (tt, st')
                     /\ run st c = st'.
Proof.
  destruct c; simpl; unfold exec, exec_insert.
  - left. destruct (set_current_user st email) as [[[] st'] |] eqn:E;
      [| reflexivity].
    unfold set_current_user in E.
    destruct (first _ (app_user st)); simpl in E; [| discriminate].
    now injection E as <-.
  - left. destruct (create_user st user) as [[[] st'] |] eqn:E; [| reflexivity].
    apply create_user_inv in E as [_ ->]. reflexivity.
  - destruct (create_account st acc) as [[[] st'] |] eqn:E; [| now left].
    right. now exists acc, st'.
  - left. reflexivity.
  - left. destruct (add_entry st e) as [[[] st'] |] eqn:E; [| reflexivity].
    apply add_entry_inv in E. now destruct E as (? & ? & _ & _ & ? & _).
  - left. unfold delete_entry. destruct (first _ (entry st)); reflexivity.
Qed.

Lemma run_unique_names st c : unique_names st -> unique_names (run st c).
Proof.
  intros Hun. destruct (run_account st c) as [H | (acc & st' & _ & H & ->)].
  - unfold unique_names. rewrite H. exact Hun.
  - eapply create_account_unique_names; eassumption.
Qed.

Lemma session_unique_names calls : unique_names (session calls).
Proof.
  unfold session.
  assert (unique_names init) as H by (intros a b u []).
  revert H. generalize init.
  induction calls as [| c calls IH]; simpl; intros st H; [assumption |].
  apply IH. now apply run_unique_names.
Qed.

Lemma list_accounts_eq st ty :
  list_accounts st ty
  = Ok (map account_record
          (filter (fun a => opt_eqb (AccountModel.user_id a) (current_uid st)
                            && restricts ty
                                 (fun t => (AccountModel.type a =? t)%string))
             (account st)), st).
Proof.
  unfold list_accounts. now rewrite filter_if_eq, filter_andb.
Qed.

(** X4. On an object driven by calls from a fresh store, no two account
    rows of one owner carry the same name, and with an identity set the
    names [list_accounts] shows are pairwise distinct. *)
Theorem accounts_never_clash calls :
  (forall a b u,
     In a (account (session calls)) -> In b (account (session calls)) ->
     AccountModel.user_id a = Some u -> AccountModel.user_id b = Some u ->
     AccountModel.name a = AccountModel.name b -> a = b)
  /\ (forall u ty l,
        current_uid (session calls) = Some u ->
        list_accounts (session calls) ty = Ok (l, session calls) ->
        NoDup (map AccountSchema.name l)).
Proof.
  pose proof (session_wf calls) as Hwf.
  pose proof (session_unique_names calls) as Hun.
  assert (Hinj : forall a b u,
             In a (account (session calls)) -> In b (account (session calls)) ->
             AccountModel.user_id a = Some u ->
             AccountModel.user_id b = Some u ->
             AccountModel.name a = AccountModel.name b -> a = b).
  { intros a b u Ha Hb Hua Hub Hn.
    eapply NoDup_key_inj; [apply Hwf | assumption | assumption |].
    eapply Hun; eauto. }
  split; [exact Hinj |].
  intros u ty l Hu H. rewrite list_accounts_eq in H. injection H as <-.
  rewrite map_map. cbn [account_record AccountSchema.name].
  apply NoDup_map_NoDup_ForallPairs.
  - intros a b Ha Hb Hn.
    apply filter_In in Ha as [Ha Hoa]. apply filter_In in Hb as [Hb Hob].
    apply andb_true_iff in Hoa as [Hoa _]. apply andb_true_iff in Hob as [Hob _].
    apply opt_eqb_eq in Hoa, Hob. rewrite Hu in Hoa, Hob. eauto.
  - apply NoDup_filter. eapply NoDup_map_inv. apply Hwf.
Qed.

Lemma accounts_never_clash_witness :
  NoDup (map AccountSchema.name
           [AccountSchema.load "cash" "wallet" "asset";
            AccountSchema.load "salary" "job" "income"]).
Proof.
  apply (proj2 (accounts_never_clash
                  [CreateUser alice; SetCurrentUser "alice@example.com";
                   CreateAccount cash; CreateAccount salary]) 1 None);
    vm_compute; reflexivity.
Defined.

(** X5. After a successful [create_account] the listing of the current
    identity is the former listing followed by the new account, which is
    shown when it passes the type filter. *)
Theorem create_account_listed st acc st' ty :
  create_account st acc = Ok (tt, st') ->
  exists l,
    list_accounts st ty = Ok (l, st)
    /\ list_accounts st' ty
       = Ok (l ++ (if restricts ty
                        (fun t => (AccountIn.type acc =? t)%string)
                   then [AccountSchema.load (AccountIn.name acc)
                           (AccountIn.description acc) (AccountIn.type acc)]
                   else []), st').
Proof.
  intros H. apply create_account_inv in H as [_ ->].
  eexists. split; [apply list_accounts_eq |].
  rewrite list_accounts_eq. cbn [account insert_account current_uid].
  rewrite filter_app, map_app. do 2 f_equal.
  cbn [filter AccountModel.user_id AccountModel.type].
  rewrite opt_eqb_refl. cbn [andb].
  now destruct (restricts ty _).
Qed.

Lemma create_account_listed_witness :
  exists st',
    create_account alice_books (AccountIn.mk "rent" "flat" "expense")
    = Ok (tt, st')
    /\ value (list_accounts st' None)
       = Some [AccountSchema.load "cash" "wallet" "asset";
               AccountSchema.load "salary" "job" "income";
               AccountSchema.load "rent" "flat" "expense"].
Proof.
  pose (rent := AccountIn.mk "rent" "flat" "expense").
  assert (H : create_account alice_books rent
              = Ok (tt, run alice_books (CreateAccount rent)))
    by (vm_compute; reflexivity).
  exists (run alice_books (CreateAccount rent)). split; [exact H |].
  destruct (create_account_listed _ _ _ None H) as (l & Hl & Hl').
  rewrite Hl'. vm_compute in Hl. injection Hl as <-. vm_compute. reflexivity.
Defined.

(** X6. [list_accounts] shows exactly the account rows owned by the
    current identity, restricted to a type only when the type asked for is
    present and not the empty string. *)
Theorem list_accounts_spec st ty :
  exists l,
    list_accounts st ty = Ok (l, st)
    /\ forall r,
         In r l <->
         exists a, In a (account st)
                   /\ AccountModel.user_id a = current_uid st
                   /\ (forall t, ty = Some t -> t <> ""%string ->
                                 AccountModel.type a = t)
                   /\ r = account_record a.
Proof.
  eexists. split; [apply list_accounts_eq |]. intros r.
  rewrite in_map_iff. split.
  - intros (a & <- & Ha). apply filter_In in Ha as [Ha H].
    apply andb_true_iff in H as [Hu Ht]. apply opt_eqb_eq in Hu.
    exists a. repeat split; try assumption.
    intros t -> Hne. rewrite restricts_given in Ht by assumption.
    now apply String.eqb_eq.
  - intros (a & Ha & Hu & Ht & ->). exists a. split; [reflexivity |].
    apply filter_In. split; [assumption |].
    rewrite Hu, opt_eqb_refl. cbn [andb]. unfold restricts.
    destruct ty as [t |]; [| reflexivity].
    destruct (t =? "")%string eqn:E; [reflexivity |].
    apply String.eqb_eq, Ht; [reflexivity |]. now apply String.eqb_neq.
Qed.

Lemma list_accounts_spec_witness :
  exists l,
    list_accounts alice_books (Some "asset"%string) = Ok (l, alice_books)
    /\ In (AccountSchema.load "cash" "wallet" "asset") l.
Proof.
  destruct (list_accounts_spec alice_books (Some "asset"%string))
    as (l & Hl & Hmem).
  exists l. split; [assumption |]. apply Hmem.
  exists (AccountModel.mk 1 (Some 1) "cash" "wallet" "asset").
  split; [vm_compute; auto |]. split; [reflexivity |].
  split; [| reflexivity]. intros t Ht _. now injection Ht as <-.
Defined.

(** * Further properties: the tag registry *)

(** A new tag row is made only for a text no stored tag carries, and it is
    owned by the current identity. *)
Lemma tag_loop_new st att made names next new ids :
  tag_loop st att made names next = (new, ids) ->
  forall t, In t new ->
    In t made
    \/ (TagModel.user_id t = current_uid st
        /\ In (TagModel.tag t) names
        /\ forall t0, In t0 (tag st) -> TagModel.tag t0 <> TagModel.tag t).
Proof.
  revert att made next new ids.
  induction names as [| n names IH]; simpl; intros att made next new ids H t Ht.
  - injection H as <- <-. now left.
  - destruct (first _ _) as [t1 |] eqn:Et.
    + destruct (tag_loop st true made names next) as [new' ids'] eqn:E.
      injection H as <- <-.
      destruct (IH _ _ _ _ _ E t Ht) as [Hm | (Hu & Hn & Hno)]; auto.
    + destruct (tag_loop st att _ names (next + 1)) as [new' ids'] eqn:E.
      injection H as <- <-.
      destruct (IH _ _ _ _ _ E t Ht) as [Hm | (Hu & Hn & Hno)]; auto.
      apply in_app_or in Hm as [Hm | [<- | []]]; [now left |].
      right. simpl. split; [reflexivity |]. split; [now left |].
      intros t0 Ht0 Heq. apply first_none with (x := t0) in Et;
        [| apply in_or_app; now left].
      apply String.eqb_neq in Et. contradiction.
Qed.

Lemma resolve_tags_new st e new ids :
  resolve_tags st e = (new, ids) ->
  forall t, In t new ->
    TagModel.user_id t = current_uid st
    /\ In (TagModel.tag t) (tag_names e)
    /\ forall t0, In t0 (tag st) -> TagModel.tag t0 <> TagModel.tag t.
Proof.
  intros H t Ht.
  destruct (tag_loop_new _ _ _ _ _ _ _ H t Ht) as [[] | Hnew]. exact Hnew.
Qed.

Lemma add_entry_tag_rows st e st' t :
  add_entry st e = Ok (tt, st') -> In t (tag st') ->
  In t (tag st)
  \/ (TagModel.user_id t = current_uid st
      /\ In (TagModel.tag t) (tag_names e)
      /\ forall t0, In t0 (tag st) -> TagModel.tag t0 <> TagModel.tag t).
Proof.
  intros H Ht. apply add_entry_inv in H
    as (new & ids & Hres & _ & _ & _ & Htag & _).
  rewrite Htag in Ht. apply in_app_or in Ht as [Ht | Ht]; [now left |].
  right. eapply resolve_tags_new; eassumption.
Qed.

Lemma Forall2_In_l {A B} (R : A -> B -> Prop) l m x :
  Forall2 R l m -> In x l -> exists y, In y m /\ R x y.
Proof.
  induction 1 as [| a b l m Hab H IH]; simpl; intros Hin; [contradiction |].
  destruct Hin as [<- | Hin]; [now exists b; auto |].
  destruct (IH Hin) as (y & Hy & Hxy). exists y. auto.
Qed.

Lemma Forall2_In_r {A B} (R : A -> B -> Prop) l m y :
  Forall2 R l m -> In y m -> exists x, In x l /\ R x y.
Proof.
  induction 1 as [| a b l m Hab H IH]; simpl; intros Hin; [contradiction |].
  destruct Hin as [<- | Hin]; [now exists a; auto |].
  destruct (IH Hin) as (x & Hx & Hxy). exists x. auto.
Qed.

Lemma add_entry_tag_present st e st' n :
  add_entry st e = Ok (tt, st') -> In n (tag_names e) ->
  exists t, In t (tag st') /\ TagModel.tag t = n.
Proof.
  intros H Hn. apply add_entry_inv in H
    as (new & ids & Hres & _ & _ & _ & Htag & _).
  apply resolve_tags_named in Hres.
  destruct (Forall2_In_l _ _ _ _ Hres Hn) as (i & _ & t & Ht & _ & Htn).
  exists t. rewrite Htag. auto.
Qed.

(** Once [entry_m] is in the session the loop makes at most one tag of
    a text. *)
Lemma tag_loop_distinct st made names next new ids :
  tag_loop st true made names next = (new, ids) ->
  NoDup (map TagModel.tag made) -> NoDup (map TagModel.tag new).
Proof.
  revert made next new ids.
  induction names as [| n names IH]; simpl; intros made next new ids H Hnd.
  - now injection H as <- <-.
  - destruct (first _ _) as [t |] eqn:Et.
    + destruct (tag_loop st true made names next) as [new' ids'] eqn:E.
      injection H as <- <-. eauto.
    + destruct (tag_loop st true _ names (next + 1)) as [new' ids'] eqn:E.
      injection H as <- <-. eapply IH; [exact E |].
      rewrite map_app. cbn [map TagModel.tag].
      apply NoDup_app; [assumption | |].
      * constructor; [intros [] | constructor].
      * intros x Hx [<- | []].
        apply in_map_iff in Hx as (t0 & Ht0 & Hin).
        apply first_none with (x := t0) in Et;
          [| apply in_or_app; now right].
        apply String.eqb_neq in Et. contradiction.
Qed.

Lemma in_session_resolves st e :
  resolves st (EntryIn.debit_account e)
  \/ resolves st (EntryIn.credit_account e) ->
  in_session st e = true.
Proof.
  unfold in_session, entry_m.
  cbn [EntryModel.credit_account_id EntryModel.debit_account_id].
  intros [H | H]; destruct (account_named_exists _ _ H) as [a ->].
  - now destruct (option_map _ _).
  - reflexivity.
Qed.

(** X7. After [add_entry] every submitted tag text has a tag row; a row
    is created only for a text that had none, and is owned by the current
    identity; when one of the two account names resolves, a text repeated
    among the submitted ones gets one row, not two; and a later
    [add_entry], under whatever identity, whose tag texts were all among
    the submitted ones creates no tag row. *)
Theorem tags_created_once st e st' :
  add_entry st e = Ok (tt, st') ->
  (forall n, In n (tag_names e) ->
             exists t, In t (tag st') /\ TagModel.tag t = n)
  /\ (exists new,
        tag st' = tag st ++ new
        /\ (forall t, In t new ->
              TagModel.user_id t = current_uid st
              /\ In (TagModel.tag t) (tag_names e)
              /\ forall t0, In t0 (tag st) ->
                   TagModel.tag t0 <> TagModel.tag t)
        /\ (resolves st (EntryIn.debit_account e)
            \/ resolves st (EntryIn.credit_account e) ->
            NoDup (map TagModel.tag new)))
  /\ (forall v e2 st2,
        (forall n, In n (tag_names e2) -> In n (tag_names e)) ->
        add_entry (reads_as st' v) e2 = Ok (tt, st2) ->
        tag st2 = tag st').
Proof.
  intros H. split; [| split].
  - intros n. now apply (add_entry_tag_present st e st').
  - destruct (add_entry_inv _ _ _ H)
      as (new & ids & Hres & _ & _ & _ & Htag & _).
    exists new. split; [assumption |]. split.
    + now apply (resolve_tags_new st e new ids).
    + intros Hr. unfold resolve_tags in Hres.
      rewrite (in_session_resolves st e Hr) in Hres.
      apply (tag_loop_distinct _ _ _ _ _ _ Hres). constructor.
  - intros v e2 st2 Hsub H2.
    pose proof (add_entry_inv _ _ _ H2)
      as (new & ids & Hres & _ & _ & _ & Htag & _).
    cbn [tag reads_as with_current_uid] in Htag. rewrite Htag.
    destruct new as [| t new]; [apply app_nil_r |]. exfalso.
    destruct (resolve_tags_new _ _ _ _ Hres t (or_introl eq_refl))
      as (_ & Hn & Hno).
    destruct (add_entry_tag_present _ _ _ _ H (Hsub _ Hn)) as (t0 & Ht0 & Heq).
    exact (Hno t0 Ht0 Heq).
Qed.

Lemma tags_created_once_witness :
  (exists st2,
     add_entry (reads_as alice_tagged (Some 2)) tagged_paycheck = Ok (tt, st2)
     /\ tag st2 = tag alice_tagged)
  /\ exists st',
       add_entry alice_books
         (EntryIn.mk "bob" "2024-01-03" 20 "lunch" "cash" "salary"
            (Some ["food"; "food"; "out"; "food"]%string))
       = Ok (tt, st')
       /\ map TagModel.tag (tag st') = ["food"; "out"]%string.
Proof.
  split.
  - assert (H : add_entry two_users tagged_paycheck = Ok (tt, alice_tagged))
      by (vm_compute; reflexivity).
    destruct (add_entry_ok (reads_as alice_tagged (Some 2)) tagged_paycheck)
      as [st2 H2].
    exists st2. split; [assumption |].
    apply (proj2 (proj2 (tags_created_once _ _ _ H)) (Some 2) tagged_paycheck);
      auto.
  - pose (lunch := EntryIn.mk "bob" "2024-01-03" 20 "lunch" "cash" "salary"
                     (Some ["food"; "food"; "out"; "food"]%string)).
    destruct (add_entry_ok alice_books lunch) as [st' H].
    exists st'. split; [exact H |].
    destruct (proj1 (proj2 (tags_created_once _ _ _ H)))
      as (new & Htag & Hnew & Hnd).
    assert (Hd : NoDup (map TagModel.tag new)).
    { apply Hnd. left.
      exists (AccountModel.mk 1 (Some 1) "cash" "wallet" "asset").
      vm_compute. auto. }
    clear Hnew Hnd Hd. vm_compute in H. injection H as <-. reflexivity.
Defined.

(** X8. [create_tag] stores a new row whether or not the text is already
    there, so the same text twice gives two rows; an [add_entry] after it
    never creates a row of that text. *)
Theorem create_tag_spec st t :
  exists st1 st2,
    create_tag st t = Ok (tt, st1)
    /\ create_tag st1 t = Ok (tt, st2)
    /\ tag st2
       = tag st ++ [TagModel.mk (tag_seq st) (current_uid st) t;
                    TagModel.mk (tag_seq st + 1) (current_uid st) t]
    /\ forall e st3 row,
         add_entry st1 e = Ok (tt, st3) ->
         In row (tag st3) -> TagModel.tag row = t -> In row (tag st1).
Proof.
  eexists _, _. split; [reflexivity |]. split; [reflexivity |].
  split; [cbn; now rewrite <- app_assoc |].
  intros e st3 row H Hrow Ht.
  destruct (add_entry_tag_rows _ _ _ _ H Hrow) as [Hin | (_ & _ & Hno)];
    [assumption |].
  exfalso. apply (Hno (TagModel.mk (tag_seq st) (current_uid st) t)).
  - cbn. apply in_or_app. right. now left.
  - now rewrite Ht.
Qed.

Lemma create_tag_spec_witness :
  exists st1 st2,
    create_tag alice_books "groceries" = Ok (tt, st1)
    /\ create_tag st1 "groceries" = Ok (tt, st2)
    /\ tag st2 = [TagModel.mk 1 (Some 1) "groceries";
                  TagModel.mk 2 (Some 1) "groceries"].
Proof.
  destruct (create_tag_spec alice_books "groceries")
    as (st1 & st2 & H1 & H2 & Htag & _).
  exists st1, st2. split; [assumption |]. split; [assumption |].
  rewrite Htag. vm_compute. reflexivity.
Defined.

(** * Further properties: references *)

Lemma link_tags_tag_in uid eid ids next et :
  In et (link_tags uid eid ids next) ->
  exists i, In i ids /\ EntryTagModel.tag_id et = Some i.
Proof.
  revert next. induction ids as [| i ids IH]; simpl; intros next H;
    [contradiction |].
  destruct H as [<- | H]; [exists i; auto |].
  destruct (IH _ H) as (j & Hj & Ht). exists j. auto.
Qed.

Lemma first_by_name_ref st n :
  account_ref_ok st (option_map AccountModel.id (account_named st n)).
Proof.
  intros i H. destruct (account_named st n) as [a |] eqn:E; [| discriminate].
  injection H as <-. apply account_named_some in E as [Hin _]. now exists a.
Qed.

Lemma refs_ok_init : refs_ok init.
Proof. constructor; intros x []. Qed.

Lemma account_ref_ok_app st st' more r :
  account st' = account st ++ more ->
  account_ref_ok st r -> account_ref_ok st' r.
Proof.
  intros Hacc H i Hi. destruct (H i Hi) as (a & Ha & Hid). exists a.
  rewrite Hacc. split; [apply in_or_app; now left | assumption].
Qed.

Lemma add_entry_refs_ok st e st' :
  refs_ok st -> add_entry st e = Ok (tt, st') -> refs_ok st'.
Proof.
  intros [Hc Hd Hle Hlt] H.
  destruct (add_entry_inv _ _ _ H)
    as (new & ids & Hres & _ & Hacc & _ & Htag & He & Hlinks).
  assert (Hacc' : account st' = account st ++ []) by now rewrite app_nil_r.
  constructor.
  - intros x Hx. rewrite He in Hx.
    apply (account_ref_ok_app st st' [] _ Hacc').
    apply in_app_or in Hx as [Hx | [<- | []]]; [auto |].
    apply first_by_name_ref.
  - intros x Hx. rewrite He in Hx.
    apply (account_ref_ok_app st st' [] _ Hacc').
    apply in_app_or in Hx as [Hx | [<- | []]]; [auto |].
    apply first_by_name_ref.
  - intros et Het. rewrite Hlinks in Het. rewrite He.
    apply in_app_or in Het as [Het | Het].
    + destruct (Hle et Het) as (x & Hx & Hid). exists x.
      split; [apply in_or_app; now left | assumption].
    + apply link_tags_entry in Het as [Het _]. exists (entry_m st e).
      split; [apply in_or_app; right; now left | assumption].
  - intros et Het. rewrite Hlinks in Het. rewrite Htag.
    apply in_app_or in Het as [Het | Het].
    + destruct (Hlt et Het) as (t & Ht & Hid). exists t.
      split; [apply in_or_app; now left | assumption].
    + apply link_tags_tag_in in Het as (i & Hi & Hid).
      apply resolve_tags_named in Hres.
      destruct (Forall2_In_r _ _ _ _ Hres Hi) as (n & _ & t & Ht & <- & _).
      now exists t.
Qed.

Lemma delete_entry_refs_ok st i b st' :
  refs_ok st -> delete_entry st i = Ok (b, st') -> refs_ok st'.
Proof.
  intros [Hc Hd Hle Hlt] H. unfold delete_entry in H.
  destruct (first _ (entry st)) as [e |]; injection H as <- <-;
    [| now constructor].
  constructor.
  - intros x Hx. apply without_entry_entries in Hx as [Hx _].
    exact (Hc x Hx).
  - intros x Hx. apply without_entry_entries in Hx as [Hx _].
    exact (Hd x Hx).
  - intros et Het. apply without_entry_links in Het as [Het Hne].
    destruct (Hle et Het) as (x & Hx & Hid). exists x.
    split; [| assumption]. apply without_entry_entries.
    split; [assumption |]. congruence.
  - intros et Het. apply without_entry_links in Het as [Het _].
    exact (Hlt et Het).
Qed.

Lemma run_refs_ok st c : refs_ok st -> refs_ok (run st c).
Proof.
  intros H. destruct c; simpl; unfold exec, exec_insert.
  - destruct (set_current_user st email) as [[[] st'] |] eqn:E;
      [| assumption].
    unfold set_current_user in E.
    destruct (first _ (app_user st)); simpl in E; [| discriminate].
    injection E as <-. destruct H. now constructor.
  - destruct (create_user st user) as [[[] st'] |] eqn:E;
      [| destruct H; now constructor].
    apply create_user_inv in E as [_ ->]. destruct H. now constructor.
  - destruct (create_account st acc) as [[[] st'] |] eqn:E;
      [| destruct H; now constructor].
    apply create_account_inv in E as [_ ->]. destruct H as [Hc Hd Hle Hlt].
    constructor; try assumption; intros x Hx;
      eapply account_ref_ok_app; eauto; reflexivity.
  - destruct H as [Hc Hd Hle Hlt]. constructor; try assumption.
    intros et Het. destruct (Hlt et Het) as (t & Ht & Hid). exists t.
    split; [cbn; apply in_or_app; now left | assumption].
  - destruct (add_entry st e) as [[[] st'] |] eqn:E; [| assumption].
    eapply add_entry_refs_ok; eassumption.
  - destruct (delete_entry st entry_id) as [[b st'] |] eqn:E; [| assumption].
    eapply delete_entry_refs_ok; eassumption.
Qed.

Lemma session_refs_ok calls : refs_ok (session calls).
Proof.
  unfold session. generalize refs_ok_init. generalize init.
  induction calls as [| c calls IH]; simpl; intros st H; [assumption |].
  apply IH. now apply run_refs_ok.
Qed.

Lemma traverse_In_l {A B} (f : A -> result B) l ys x :
  traverse f l = Ok ys -> In x l -> exists y, f x = Ok y.
Proof.
  intros H Hx. apply traverse_Forall2 in H.
  destruct (Forall2_In_l _ _ _ _ H Hx) as (y & _ & Hy). now exists y.
Qed.

(** With sound references, the record of an entry can be built as soon as
    neither account reference is null. *)
Lemma entry_record_total st e :
  refs_ok st -> In e (entry st) ->
  EntryModel.credit_account_id e <> None ->
  EntryModel.debit_account_id e <> None ->
  exists r, entry_record st e = Ok r.
Proof.
  intros [Hc Hd Hle Hlt] Hin Hcn Hdn. unfold entry_record.
  assert (Hside : forall r, account_ref_ok st r -> r <> None ->
                            exists a, account_by_id st r = Some a).
  { intros [i |] Hr Hne; [| congruence].
    destruct (Hr i eq_refl) as (a & Ha & Hid). unfold account_by_id.
    apply (first_exists _ _ a Ha). now apply Z.eqb_eq. }
  destruct (Hside _ (Hc e Hin) Hcn) as [c Ec].
  destruct (Hside _ (Hd e Hin) Hdn) as [d Ed].
  unfold credit_account, debit_account. rewrite Ec, Ed. simpl.
  destruct (traverse_total (fun et => attr (tag_of st et) TagModel.tag)
              (entry_tags st e)) as [ts ->]; [| simpl; eauto].
  intros et Het. apply filter_In in Het as [Het _].
  destruct (Hlt et Het) as (t & Ht & Hid). unfold tag_of. rewrite Hid.
  destruct (first_exists (fun t0 => TagModel.id t0 =? TagModel.id t) _ t Ht)
    as [t' ->]; [apply Z.eqb_refl |]. simpl. eauto.
Qed.

(** X9. On an object driven by calls from a fresh store no reference
    dangles: every account reference that is not null, every association's
    entry and every association's tag is a stored row.  So a listing
    returns exactly when none of the entries it is about was stored with a
    null account reference. *)
Theorem references_never_dangle calls :
  refs_ok (session calls)
  /\ forall dr cr,
       (exists l, list_entries (session calls) dr cr = Ok (l, session calls))
       <-> (forall e, In e (query_entries (session calls) dr cr) ->
                      EntryModel.credit_account_id e <> None
                      /\ EntryModel.debit_account_id e <> None).
Proof.
  pose proof (session_refs_ok calls) as Hrefs.
  split; [assumption |]. intros dr cr. split.
  - intros [l H] e He. apply list_entries_inv in H as [_ H].
    destruct (traverse_In_l _ _ _ _ H He) as [r Hr].
    apply entry_record_inv in Hr as (c & d & ts & Hc & Hd & _).
    unfold credit_account, debit_account, account_by_id in Hc, Hd.
    split; intros Hnull; rewrite Hnull in *; discriminate.
  - intros Hall. unfold list_entries.
    destruct (traverse_total (entry_record (session calls))
                (query_entries (session calls) dr cr)) as [l ->];
      [| simpl; eauto].
    intros e He. destruct (Hall e He) as [Hc Hd].
    apply entry_record_total; try assumption.
    now apply query_entries_In in He as [He _].
Qed.

Lemma references_never_dangle_witness :
  exists l,
    list_entries
      (session [CreateUser alice; SetCurrentUser "alice@example.com";
                CreateAccount cash; CreateAccount salary; AddEntry paycheck])
      None None
    = Ok (l, session [CreateUser alice; SetCurrentUser "alice@example.com";
                      CreateAccount cash; CreateAccount salary;
                      AddEntry paycheck]).
Proof.
  apply (proj2 (references_never_dangle
                  [CreateUser alice; SetCurrentUser "alice@example.com";
                   CreateAccount cash; CreateAccount salary;
                   AddEntry paycheck]) None None).
  intros e He. vm_compute in He. destruct He as [<- | []].
  split; discriminate.
Defined.

(** * Further properties: balances *)

(** With distinct account keys, a reference to a stored account matches
    exactly the name of that account. *)
Lemma has_name_resolved st a n :
  wf st -> In a (account st) ->
  has_name st (Some (AccountModel.id a)) n = (AccountModel.name a =? n)%string.
Proof.
  intros Hwf Ha. rewrite has_name_side by apply Hwf.
  unfold account_by_id.
  change (fun a0 => AccountModel.id a0 =? AccountModel.id a)
    with (by_key AccountModel.id (AccountModel.id a)).
  rewrite first_by_key; [reflexivity | apply Hwf | assumption].
Qed.

Lemma has_name_by_name st d n :
  wf st -> resolves st d ->
  has_name st (option_map AccountModel.id (account_named st d)) n
  = (d =? n)%string.
Proof.
  intros Hwf Hd. destruct (account_named_exists _ _ Hd) as [a E].
  rewrite E. apply account_named_some in E as [Ha Hn].
  cbn [option_map]. rewrite has_name_resolved by assumption. now rewrite Hn.
Qed.

Lemma balance_after_add_entry st e st' n :
  wf st -> add_entry st e = Ok (tt, st') ->
  resolves st (EntryIn.debit_account e) ->
  resolves st (EntryIn.credit_account e) ->
  balance st' n = balance st n + moved e n.
Proof.
  intros Hwf H Hd Hc. unfold balance.
  rewrite (add_entry_debits _ _ _ n H), (add_entry_credits _ _ _ n H).
  unfold share, moved, entry_m.
  cbn [EntryModel.debit_account_id EntryModel.credit_account_id].
  rewrite !has_name_by_name by assumption.
  destruct (EntryIn.debit_account e =? n)%string,
    (EntryIn.credit_account e =? n)%string; lia.
Qed.

(** X10. When both account names of an entry resolve, [add_entry] changes
    the balance of an account name by the amount if it is the debit name,
    by minus the amount if it is the credit name (both if it is both), and
    leaves every other balance as it is. *)
Theorem add_entry_balance st e st' n :
  wf st -> add_entry st e = Ok (tt, st') ->
  resolves st (EntryIn.debit_account e) ->
  resolves st (EntryIn.credit_account e) ->
  get_account_balance st' n = Ok (balance st n + moved e n, st').
Proof.
  intros Hwf H Hd Hc. rewrite get_account_balance_eq.
  now rewrite (balance_after_add_entry st e st' n Hwf H Hd Hc).
Qed.

Lemma add_entry_balance_witness :
  get_account_balance alice_paid "cash" = Ok (1000, alice_paid)
  /\ get_account_balance alice_paid "salary" = Ok (-1000, alice_paid).
Proof.
  assert (H : add_entry alice_books paycheck = Ok (tt, alice_paid))
    by (vm_compute; reflexivity).
  assert (Hd : resolves alice_books (EntryIn.debit_account paycheck)).
  { exists (AccountModel.mk 1 (Some 1) "cash" "wallet" "asset").
    vm_compute. auto. }
  assert (Hc : resolves alice_books (EntryIn.credit_account paycheck)).
  { exists (AccountModel.mk 2 (Some 1) "salary" "job" "income").
    vm_compute. auto. }
  split.
  - rewrite (add_entry_balance alice_books paycheck alice_paid "cash"
               (session_wf _) H Hd Hc). reflexivity.
  - rewrite (add_entry_balance alice_books paycheck alice_paid "salary"
               (session_wf _) H Hd Hc). reflexivity.
Defined.

Lemma total_cons x l : total (x :: l) = x + total l.
Proof. reflexivity. Qed.

Lemma total_map_add {A} (f g : A -> numeric) l :
  total (map (fun x => f x + g x) l) = total (map f l) + total (map g l).
Proof.
  unfold total. induction l as [| x l IH]; simpl; [reflexivity |].
  rewrite IH. lia.
Qed.

Lemma total_map_zero {A} (f : A -> numeric) l :
  (forall x, In x l -> f x = 0) -> total (map f l) = 0.
Proof.
  unfold total. induction l as [| x l IH]; simpl; intros H; [reflexivity |].
  rewrite (H x (or_introl eq_refl)), IH; auto.
Qed.

(** Over distinct names, the amounts that go to the name [d] add up to
    one amount. *)
Lemma total_indicator d a ns :
  NoDup ns -> In d ns ->
  total (map (fun n => if (d =? n)%string then a else 0) ns) = a.
Proof.
  induction ns as [| n ns IH]; intros Hnd Hin; [contradiction |].
  inversion Hnd as [| ? ? Hnin Hnd']; subst.
  cbn [map]. rewrite total_cons.
  destruct Hin as [Hin | Hin].
  - subst n. rewrite String.eqb_refl, total_map_zero; [lia |].
    intros x Hx. destruct (d =? x)%string eqn:E; [| reflexivity].
    apply String.eqb_eq in E. subst. contradiction.
  - rewrite IH by assumption.
    destruct (d =? n)%string eqn:E; [| lia].
    apply String.eqb_eq in E. subst. contradiction.
Qed.

Lemma total_map_sub {A} (f g : A -> numeric) l :
  total (map (fun x => f x - g x) l) = total (map f l) - total (map g l).
Proof.
  unfold total. induction l as [| x l IH]; simpl; [reflexivity |].
  rewrite IH. lia.
Qed.

Lemma total_moved e ns :
  NoDup ns -> In (EntryIn.debit_account e) ns ->
  In (EntryIn.credit_account e) ns ->
  total (map (moved e) ns) = 0.
Proof.
  intros Hnd Hd Hc. unfold moved.
  rewrite (total_map_sub
             (fun n => if (EntryIn.debit_account e =? n)%string
                       then EntryIn.amount e else 0)
             (fun n => if (EntryIn.credit_account e =? n)%string
                       then EntryIn.amount e else 0)).
  rewrite !total_indicator by assumption. apply Z.sub_diag.
Qed.

(** X11. Double entry: when both account names of an entry resolve,
    [add_entry] leaves the sum of the balances over any set of account
    names that holds both names unchanged. *)
Theorem add_entry_conserves st e st' ns :
  wf st -> add_entry st e = Ok (tt, st') ->
  resolves st (EntryIn.debit_account e) ->
  resolves st (EntryIn.credit_account e) ->
  NoDup ns -> In (EntryIn.debit_account e) ns ->
  In (EntryIn.credit_account e) ns ->
  total (map (balance st') ns) = total (map (balance st) ns).
Proof.
  intros Hwf H Hd Hc Hnd Hdn Hcn.
  rewrite (map_ext _ (fun n => balance st n + moved e n))
    by (intros n; now apply balance_after_add_entry).
  rewrite total_map_add, (total_moved e ns Hnd Hdn Hcn). lia.
Qed.

Lemma add_entry_conserves_witness :
  total (map (balance alice_paid) ["cash"; "salary"; "rent"]%string)
  = total (map (balance alice_books) ["cash"; "salary"; "rent"]%string).
Proof.
  assert (H : add_entry alice_books paycheck = Ok (tt, alice_paid))
    by (vm_compute; reflexivity).
  apply (add_entry_conserves alice_books paycheck alice_paid _
           (session_wf _) H).
  - exists (AccountModel.mk 1 (Some 1) "cash" "wallet" "asset").
    vm_compute. auto.
  - exists (AccountModel.mk 2 (Some 1) "salary" "job" "income").
    vm_compute. auto.
  - repeat constructor; simpl; intuition discriminate.
  - vm_compute. auto.
  - vm_compute. auto.
Defined.

(** * Further properties: deleting and balances *)

Lemma first_none_intro {A} (p : A -> bool) rows :
  (forall x, In x rows -> p x = false) -> first p rows = None.
Proof.
  intros H. destruct (first p rows) as [x |] eqn:E; [| reflexivity].
  apply first_some in E as [Hin Hp]. rewrite (H x Hin) in Hp. discriminate.
Qed.

(** Reads of the entry tables do not look at the users or at the
    sequences. *)
Lemma balance_ext st st' n :
  account st' = account st -> entry st' = entry st ->
  current_uid st' = current_uid st ->
  balance st' n = balance st n.
Proof.
  intros Ha He Hu. unfold balance, debits, credits, owned, has_name.
  now rewrite Ha, He, Hu.
Qed.

Lemma add_entry_links_of_new st e st' ids new :
  wf st -> add_entry st e = Ok (tt, st') ->
  resolve_tags st e = (new, ids) ->
  entry_tags st' (entry_m st e)
  = link_tags (current_uid st) (entry_seq st) ids (entry_tag_seq st).
Proof.
  intros Hwf H Hres.
  destruct (add_entry_inv _ _ _ H)
    as (new' & ids' & Hres' & _ & _ & _ & _ & _ & Hlinks).
  rewrite Hres in Hres'. injection Hres' as <- <-.
  unfold entry_tags. rewrite Hlinks, filter_app.
  rewrite filter_nil_in, filter_all_in; [reflexivity | |].
  - intros et Het. apply link_tags_entry in Het as [-> _]. apply opt_eqb_refl.
  - intros et Het. destruct (wf_links _ Hwf et Het) as (i & -> & Hi).
    simpl. apply Z.eqb_neq. lia.
Qed.

(** X12. Deleting the entry that [add_entry] has just stored gives the
    entries, the associations and all balances of before back; the tag
    rows the entry brought stay. *)
Theorem add_then_delete st e st' :
  wf st -> add_entry st e = Ok (tt, st') ->
  exists st'',
    delete_entry st' (entry_seq st) = Ok (true, st'')
    /\ entry st'' = entry st
    /\ entry_tag st'' = entry_tag st
    /\ account st'' = account st
    /\ tag st'' = tag st'
    /\ forall n, get_account_balance st'' n = Ok (balance st n, st'').
Proof.
  intros Hwf H.
  destruct (add_entry_inv _ _ _ H)
    as (new & ids & Hres & _ & Hacc & Hu & _ & He & Hlinks).
  exists (without_entry st' (entry_m st e)).
  assert (Hdel : delete_entry st' (entry_seq st)
                 = Ok (true, without_entry st' (entry_m st e))).
  { unfold delete_entry. rewrite He, first_app_none.
    - unfold first. cbn [find entry_m EntryModel.user_id EntryModel.id].
      now rewrite Hu, opt_eqb_refl, Z.eqb_refl.
    - apply first_none_intro. intros x Hx.
      pose proof (wf_entry_seq _ Hwf x Hx) as Hlt.
      apply andb_false_iff. right. apply Z.eqb_neq. lia. }
  assert (Hent : entry (without_entry st' (entry_m st e)) = entry st).
  { cbn [entry without_entry]. rewrite He, filter_app.
    rewrite filter_all_in.
    - cbn [filter entry_m EntryModel.id]. rewrite Z.eqb_refl. apply app_nil_r.
    - intros x Hx. pose proof (wf_entry_seq _ Hwf x Hx) as Hlt.
      apply negb_true_iff, Z.eqb_neq. cbn. lia. }
  assert (Hets : entry_tag (without_entry st' (entry_m st e)) = entry_tag st).
  { cbn [entry_tag without_entry].
    rewrite (add_entry_links_of_new st e st' ids new Hwf H Hres).
    rewrite Hlinks, filter_app.
    pose proof (consecutive_bounds _ _
                  (link_tags_keys (current_uid st) (entry_seq st) ids
                     (entry_tag_seq st))) as Hk.
    rewrite filter_all_in, filter_nil_in; [apply app_nil_r | |].
    - intros et Het. apply negb_false_iff, existsb_exists.
      exists (EntryTagModel.id et). split; [now apply in_map | apply Z.eqb_refl].
    - intros et Het. apply negb_true_iff, not_true_is_false. intros Hex.
      apply existsb_exists in Hex as (k & Hk' & Heq). apply Z.eqb_eq in Heq.
      subst k. pose proof (wf_entry_tag_seq _ Hwf et Het) as Hlt.
      specialize (Hk _ Hk'). lia. }
  repeat (split; [assumption || reflexivity |]).
  intros n. rewrite get_account_balance_eq. f_equal. f_equal.
  apply balance_ext; [exact Hacc | exact Hent | exact Hu].
Qed.

Lemma add_then_delete_witness :
  exists st'',
    delete_entry alice_tagged 1 = Ok (true, st'')
    /\ entry st'' = [] /\ entry_tag st'' = []
    /\ tag st'' = tag alice_tagged.
Proof.
  assert (H : add_entry two_users tagged_paycheck = Ok (tt, alice_tagged))
    by (vm_compute; reflexivity).
  destruct (add_then_delete two_users tagged_paycheck alice_tagged
              (session_wf _) H)
    as (st'' & Hdel & He & Het & _ & Htag & _).
  exists st''. split; [exact Hdel |]. rewrite He, Het, Htag.
  repeat split.
Defined.

(** Taking one row out of a table with distinct keys takes its share out
    of every filtered sum. *)
Lemma total_without (f : EntryModel.t -> numeric) p l e :
  NoDup (map EntryModel.id l) -> In e l ->
  total (map f (filter p l))
  = total (map f (filter p
                    (filter (fun x => negb (EntryModel.id x =? EntryModel.id e))
                       l)))
    + (if p e then f e else 0).
Proof.
  induction l as [| x l IH]; intros Hnd Hin; [contradiction |].
  inversion Hnd as [| ? ? Hnin Hnd']; subst.
  destruct Hin as [-> | Hin].
  - cbn [filter]. rewrite Z.eqb_refl. cbn [negb].
    rewrite (filter_all_in (fun x => negb (EntryModel.id x =? EntryModel.id e))).
    + destruct (p e); [cbn [map]; rewrite total_cons |]; lia.
    + intros x Hx. apply negb_true_iff, Z.eqb_neq. intros Heq.
      apply Hnin. rewrite <- Heq. now apply in_map.
  - assert ((EntryModel.id x =? EntryModel.id e) = false) as Hne.
    { apply Z.eqb_neq. intros Heq. apply Hnin. rewrite Heq. now apply in_map. }
    cbn [filter]. rewrite Hne. cbn [negb filter].
    specialize (IH Hnd' Hin).
    destruct (p x); [cbn [map]; rewrite !total_cons |]; lia.
Qed.

Lemma delete_entry_found st e :
  wf st -> In e (entry st) -> EntryModel.user_id e = current_uid st ->
  delete_entry st (EntryModel.id e) = Ok (true, without_entry st e).
Proof.
  intros Hwf Hin Hu.
  destruct (delete_entry_present st _ e Hin Hu eq_refl)
    as (e' & Hin' & _ & Hid & ->).
  assert (e' = e) as -> by (eapply NoDup_key_inj; eauto; apply Hwf).
  reflexivity.
Qed.

(** X13. Deleting an entry of the current identity takes out of every
    balance exactly what the entry weighed in it: its amount on its debit
    name, minus its amount on its credit name. *)
Theorem delete_entry_balance st e n :
  wf st -> In e (entry st) -> EntryModel.user_id e = current_uid st ->
  exists st',
    delete_entry st (EntryModel.id e) = Ok (true, st')
    /\ get_account_balance st' n = Ok (balance st n - weight st n e, st').
Proof.
  intros Hwf Hin Hu. exists (without_entry st e).
  split; [now apply delete_entry_found |].
  rewrite get_account_balance_eq. do 2 f_equal.
  assert (Hown : owned st e = true).
  { unfold owned. rewrite Hu. apply opt_eqb_refl. }
  assert (Hd : debits (without_entry st e) n
               = filter (fun x => owned st x
                                  && has_name st (EntryModel.debit_account_id x) n)
                   (filter (fun x => negb (EntryModel.id x =? EntryModel.id e))
                      (entry st))) by reflexivity.
  assert (Hc : credits (without_entry st e) n
               = filter (fun x => owned st x
                                  && has_name st (EntryModel.credit_account_id x) n)
                   (filter (fun x => negb (EntryModel.id x =? EntryModel.id e))
                      (entry st))) by reflexivity.
  unfold balance at 1. rewrite Hd, Hc. unfold balance, debits, credits, weight.
  rewrite (total_without EntryModel.amount
             (fun x => owned st x
                       && has_name st (EntryModel.debit_account_id x) n)
             (entry st) e (wf_entry_ids _ Hwf) Hin).
  rewrite (total_without EntryModel.amount
             (fun x => owned st x
                       && has_name st (EntryModel.credit_account_id x) n)
             (entry st) e (wf_entry_ids _ Hwf) Hin).
  rewrite Hown. cbn [andb]. unfold numeric in *.
  destruct (has_name st (EntryModel.debit_account_id e) n),
    (has_name st (EntryModel.credit_account_id e) n); lia.
Qed.

Lemma delete_entry_balance_witness :
  exists st',
    delete_entry alice_paid 1 = Ok (true, st')
    /\ get_account_balance st' "cash" = Ok (0, st').
Proof.
  destruct (delete_entry_balance alice_paid
              (EntryModel.mk 1 (Some 1) "bob" "2024-01-01" (Some 2) (Some 1)
                 1000 "paycheck") "cash"%string)
    as (st' & Hdel & Hbal).
  - apply run_wf, session_wf.
  - vm_compute. auto.
  - reflexivity.
  - exists st'. split; [exact Hdel |]. rewrite Hbal. reflexivity.
Defined.

(** * Further properties: identities do not see each other's calls *)

Lemma filter_andb_split {A} (p q : A -> bool) l :
  filter (fun x => p x && q x) l = filter q (filter p l).
Proof. symmetry. apply filter_andb. Qed.

Lemma has_name_reads_as st v r n :
  has_name (reads_as st v) r n = has_name st r n.
Proof. reflexivity. Qed.

Section SameView.
Variables (v : option Z) (st st' : Database).
Hypothesis Hview : same_view v st st'.

Lemma same_view_filtered (q q' : EntryModel.t -> bool) :
  (forall e, In e (entry st) -> q' e = q e) ->
  filter (fun e => opt_eqb (EntryModel.user_id e) v && q' e) (entry st')
  = filter (fun e => opt_eqb (EntryModel.user_id e) v && q e) (entry st).
Proof.
  intros Hq. rewrite !filter_andb_split, (view_entries _ _ _ Hview).
  apply filter_ext_in. intros e He. apply filter_In in He as [He _]. auto.
Qed.

Lemma same_view_balance n :
  balance (reads_as st' v) n = balance (reads_as st v) n.
Proof.
  unfold balance, debits, credits, owned.
  cbn [entry current_uid reads_as with_current_uid].
  rewrite (same_view_filtered
             (fun e => has_name (reads_as st v) (EntryModel.debit_account_id e) n)
             (fun e => has_name (reads_as st' v) (EntryModel.debit_account_id e) n)).
  - rewrite (same_view_filtered
               (fun e => has_name (reads_as st v)
                           (EntryModel.credit_account_id e) n)
               (fun e => has_name (reads_as st' v)
                           (EntryModel.credit_account_id e) n)).
    + reflexivity.
    + intros e He. apply (view_sides _ _ _ Hview e n He).
  - intros e He. apply (view_sides _ _ _ Hview e n He).
Qed.

Lemma same_view_accounts ty :
  value (list_accounts (reads_as st' v) ty)
  = value (list_accounts (reads_as st v) ty).
Proof.
  rewrite !list_accounts_eq. cbn [value]. f_equal. f_equal.
  cbn [account current_uid reads_as with_current_uid].
  rewrite !filter_andb_split. now rewrite (view_accounts _ _ _ Hview).
Qed.

Lemma same_view_query dr cr :
  query_entries (reads_as st' v) dr cr = query_entries (reads_as st v) dr cr.
Proof.
  rewrite !query_entries_filter. unfold passes, owned.
  cbn [entry current_uid reads_as with_current_uid].
  rewrite (filter_ext _ (fun e =>
             opt_eqb (EntryModel.user_id e) v
             && (restricts dr (has_name (reads_as st' v)
                                 (EntryModel.debit_account_id e))
                 && restricts cr (has_name (reads_as st' v)
                                    (EntryModel.credit_account_id e)))))
    by (intros e; symmetry; apply andb_assoc).
  rewrite (same_view_filtered
             (fun e => restricts dr (has_name (reads_as st v)
                                       (EntryModel.debit_account_id e))
                       && restricts cr (has_name (reads_as st v)
                                          (EntryModel.credit_account_id e)))).
  - apply filter_ext. intros e. apply andb_assoc.
  - intros e He. unfold restricts.
    destruct dr as [d |], cr as [c |];
      rewrite ?has_name_reads_as, ?(proj1 (view_sides _ _ _ Hview e _ He)),
        ?(proj2 (view_sides _ _ _ Hview e _ He)); reflexivity.
Qed.

Lemma same_view_listing dr cr l :
  value (list_entries (reads_as st v) dr cr) = Some l ->
  value (list_entries (reads_as st' v) dr cr) = Some l.
Proof.
  unfold list_entries. rewrite same_view_query.
  destruct (traverse (entry_record (reads_as st v))
              (query_entries (reads_as st v) dr cr)) as [l0 |] eqn:E;
    [| discriminate].
  cbn. intros H. injection H as <-.
  rewrite (traverse_impl _ (entry_record (reads_as st' v)) _ _ E);
    [reflexivity |].
  intros e r He Hr. apply query_entries_In in He as [He Hu].
  apply (view_records _ _ _ Hview e r He Hu Hr).
Qed.
End SameView.

Lemma same_view_refl v st : same_view v st st.
Proof. constructor; auto. Qed.

(** A row appended under another identity is not seen. *)
Lemma filter_owner_snoc {A} (owner : A -> option Z) v rows x :
  owner x <> v ->
  filter (fun a => opt_eqb (owner a) v) (rows ++ [x])
  = filter (fun a => opt_eqb (owner a) v) rows.
Proof.
  intros Hne. rewrite filter_app. cbn [filter].
  destruct (opt_eqb (owner x) v) eqn:E; [| apply app_nil_r].
  apply opt_eqb_eq in E. contradiction.
Qed.

Lemma has_name_app_fresh st st' row r n :
  wf st -> account st' = account st ++ [row] ->
  AccountModel.id row = account_seq st ->
  account_ref_ok st r ->
  has_name st' r n = has_name st r n.
Proof.
  intros Hwf Hacc Hid Hr. unfold has_name. destruct r as [i |]; [| reflexivity].
  rewrite Hacc, existsb_app. cbn [existsb].
  destruct (Hr i eq_refl) as (a & Ha & Hai).
  pose proof (wf_account_seq _ Hwf a Ha) as Hlt.
  assert ((AccountModel.id row =? i) = false) as -> by (apply Z.eqb_neq; lia).
  now rewrite !orb_false_r.
Qed.

Lemma account_by_id_app st st' more e r :
  account st' = account st ++ more -> tag st' = tag st ->
  entry_tag st' = entry_tag st ->
  entry_record st e = Ok r -> entry_record st' e = Ok r.
Proof.
  intros Hacc Htag Het H.
  apply entry_record_inv in H as (c & d & ts & Hc & Hd & Hts & ->).
  unfold entry_record, credit_account, debit_account, account_by_id,
    entry_tags, tag_of in *.
  rewrite Hacc, Htag, Het.
  destruct (EntryModel.credit_account_id e) as [i |]; [| discriminate].
  destruct (EntryModel.debit_account_id e) as [j |]; [| discriminate].
  rewrite (first_app_some _ _ _ _ Hc), (first_app_some _ _ _ _ Hd). simpl.
  now rewrite Hts.
Qed.

Lemma tag_app_record st st' more e r :
  account st' = account st -> tag st' = tag st ++ more ->
  entry_tag st' = entry_tag st ->
  entry_record st e = Ok r -> entry_record st' e = Ok r.
Proof.
  intros Hacc Htag Het H.
  apply entry_record_inv in H as (c & d & ts & Hc & Hd & Hts & ->).
  unfold entry_record, credit_account, debit_account, account_by_id,
    entry_tags in *.
  rewrite Hacc, Het, Hc, Hd. simpl.
  rewrite (traverse_impl _ _ _ _ Hts); [reflexivity |].
  intros et t _. unfold tag_of. rewrite Htag.
  destruct (EntryTagModel.tag_id et) as [i |]; [| discriminate].
  destruct (first _ (tag st)) as [t' |] eqn:E; [| discriminate].
  now rewrite (first_app_some _ _ _ _ E).
Qed.

Lemma run_same_view st c v :
  wf st -> refs_ok st -> current_uid st <> v -> same_view v st (run st c).
Proof.
  intros Hwf Hrefs Hne. destruct c; simpl; unfold exec, exec_insert.
  - destruct (set_current_user st email) as [[[] st'] |] eqn:E;
      [| apply same_view_refl].
    unfold set_current_user in E.
    destruct (first _ (app_user st)); simpl in E; [| discriminate].
    injection E as <-. constructor; auto.
  - destruct (create_user st user) as [[[] st'] |] eqn:E;
      [| constructor; auto].
    apply create_user_inv in E as [_ ->]. constructor; auto.
  - destruct (create_account st acc) as [[[] st'] |] eqn:E;
      [| constructor; auto].
    apply create_account_inv in E as [_ ->]. constructor.
    + reflexivity.
    + cbn [account insert_account]. now apply filter_owner_snoc.
    + intros e n He. split;
        eapply has_name_app_fresh; eauto; try reflexivity;
        [apply (refs_debit _ Hrefs e He) | apply (refs_credit _ Hrefs e He)].
    + intros e r _ _. eapply account_by_id_app; reflexivity.
  - constructor; auto.
    intros e r _ _. eapply tag_app_record; reflexivity.
  - destruct (add_entry st e) as [[[] st'] |] eqn:E; [| apply same_view_refl].
    destruct (add_entry_inv _ _ _ E)
      as (new & ids & _ & _ & Hacc & _ & _ & He & _).
    constructor.
    + rewrite He. now apply filter_owner_snoc.
    + now rewrite Hacc.
    + intros x n _. split; now apply has_name_ext.
    + intros x r Hx _. now apply (add_entry_old_record st st' e Hwf E).
  - unfold delete_entry.
    destruct (first _ (entry st)) as [e |] eqn:E; [| apply same_view_refl].
    apply first_some in E as [He Hp]. apply andb_true_iff in Hp as [Hu _].
    apply opt_eqb_eq in Hu.
    assert (Hother : forall x, In x (entry st) -> EntryModel.user_id x = v ->
                               EntryModel.id x <> EntryModel.id e).
    { intros x Hx Hxv Hid.
      assert (x = e) as -> by (eapply NoDup_key_inj; eauto; apply Hwf).
      congruence. }
    constructor.
    + cbn [entry without_entry]. rewrite filter_andb. apply filter_ext_in.
      intros x Hx.
      destruct (opt_eqb (EntryModel.user_id x) v) eqn:Ex;
        [| apply andb_false_r].
      apply opt_eqb_eq in Ex. rewrite andb_true_r.
      apply negb_true_iff, Z.eqb_neq. auto.
    + reflexivity.
    + intros x n _. split; reflexivity.
    + intros x r Hx Hxv Hr. rewrite without_entry_record; auto. apply Hwf.
Qed.

(** X14. No call made under one identity changes what another identity
    reads: on a store with sound keys and references, after any call made
    while the identity is not [v], the balances, the account listing and
    every entry listing that returned are for [v] what they were. *)
Theorem other_identity_reads_unchanged st c v :
  wf st -> refs_ok st -> current_uid st <> v ->
  (forall n,
     value (get_account_balance (reads_as (run st c) v) n)
     = value (get_account_balance (reads_as st v) n))
  /\ (forall ty,
        value (list_accounts (reads_as (run st c) v) ty)
        = value (list_accounts (reads_as st v) ty))
  /\ (forall dr cr l,
        value (list_entries (reads_as st v) dr cr) = Some l ->
        value (list_entries (reads_as (run st c) v) dr cr) = Some l).
Proof.
  intros Hwf Hrefs Hne.
  pose proof (run_same_view st c v Hwf Hrefs Hne) as Hview.
  split; [| split].
  - intros n. rewrite !get_account_balance_eq. cbn [value].
    now rewrite (same_view_balance v st (run st c) Hview).
  - intros ty. now apply same_view_accounts.
  - intros dr cr l. now apply same_view_listing.
Qed.

Lemma other_identity_reads_unchanged_witness :
  value (list_accounts
           (reads_as (run two_users (AddEntry tagged_paycheck)) (Some 2)) None)
  = Some [AccountSchema.load "savings" "carol's" "asset"].
Proof.
  assert (H : current_uid two_users <> Some 2)
    by (vm_compute; discriminate).
  rewrite (proj1 (proj2 (other_identity_reads_unchanged two_users
                           (AddEntry tagged_paycheck) (Some 2)
                           (session_wf _) (session_refs_ok _) H)) None).
  vm_compute. reflexivity.
Defined.

(** * Further properties: listings, balances and keys *)

Lemma entry_records_fields st es l :
  traverse (entry_record st) es = Ok l ->
  map EntrySchema.id l = map EntryModel.id es
  /\ map EntrySchema.amount l = map EntryModel.amount es.
Proof.
  intros H. apply traverse_Forall2 in H.
  induction H as [| e r es l Hr H [IH1 IH2]]; [split; reflexivity |].
  apply entry_record_inv in Hr as (c & d & ts & _ & _ & _ & ->).
  cbn [map EntrySchema.id EntrySchema.amount]. now rewrite IH1, IH2.
Qed.

Lemma query_debit st n :
  n <> ""%string -> query_entries st (Some n) None = debits st n.
Proof.
  intros Hn. rewrite query_entries_filter. unfold debits, passes.
  apply filter_ext. intros e. rewrite restricts_given by assumption.
  cbn [restricts]. apply andb_true_r.
Qed.

Lemma query_credit st n :
  n <> ""%string -> query_entries st None (Some n) = credits st n.
Proof.
  intros Hn. rewrite query_entries_filter. unfold credits, passes.
  apply filter_ext. intros e. rewrite restricts_given by assumption.
  cbn [restricts]. now rewrite andb_true_r.
Qed.

(** X15. The balance agrees with the listings: for a name that is not the
    empty string, when the listing by debit name and the listing by credit
    name return, [get_account_balance] is the sum of the amounts of the
    first minus the sum of the amounts of the second. *)
Theorem balance_matches_listings st n ld lc :
  n <> ""%string ->
  list_entries st (Some n) None = Ok (ld, st) ->
  list_entries st None (Some n) = Ok (lc, st) ->
  get_account_balance st n
  = Ok (total (map EntrySchema.amount ld) - total (map EntrySchema.amount lc),
        st).
Proof.
  intros Hn Hd Hc.
  apply list_entries_inv in Hd as [_ Hd]. apply list_entries_inv in Hc as [_ Hc].
  rewrite query_debit in Hd by assumption.
  rewrite query_credit in Hc by assumption.
  apply entry_records_fields in Hd as [_ ->].
  apply entry_records_fields in Hc as [_ ->].
  apply get_account_balance_eq.
Qed.

Lemma balance_matches_listings_witness :
  get_account_balance alice_paid "salary" = Ok (0 - 1000, alice_paid).
Proof.
  apply (balance_matches_listings alice_paid "salary" []
           [EntrySchema.load 1 "2024-01-01" "paycheck" "salary" "cash" 1000
              "bob" []]).
  - discriminate.
  - vm_compute. reflexivity.
  - vm_compute. reflexivity.
Defined.

Lemma reads_as_wf st v : wf st -> wf (reads_as st v).
Proof. intros []. constructor; assumption. Qed.

(** X17. With distinct keys, [delete_entry] never removes an entry of
    another owner, nor an entry of another key, nor an association of
    another entry: whatever key it is given, those rows are still stored
    afterwards. *)
Theorem delete_entry_spares_others st i b st' :
  wf st ->
  delete_entry st i = Ok (b, st') ->
  (forall e, In e (entry st) -> EntryModel.user_id e <> current_uid st ->
             In e (entry st'))
  /\ (forall e, In e (entry st) -> EntryModel.id e <> i -> In e (entry st'))
  /\ (forall et, In et (entry_tag st) ->
                 EntryTagModel.entry_id et <> Some i -> In et (entry_tag st')).
Proof.
  intros Hwf. unfold delete_entry.
  destruct (first _ (entry st)) as [e' |] eqn:E; intros H;
    injection H as <- <-; [| auto].
  apply first_some in E as [Hin Hp]. apply andb_true_iff in Hp as [Hu Hi].
  apply opt_eqb_eq in Hu. apply Z.eqb_eq in Hi. subst i.
  split; [| split].
  - intros e He Hne. apply without_entry_entries. split; [assumption |].
    intros Hid.
    assert (e = e') as -> by (eapply NoDup_key_inj; eauto; apply Hwf).
    contradiction.
  - intros e He Hne. now apply without_entry_entries.
  - intros et Het Hne. apply without_entry_links_kept; auto. apply Hwf.
Qed.

Lemma delete_entry_spares_others_witness :
  delete_entry (reads_as alice_paid (Some 2)) 1
  = Ok (false, reads_as alice_paid (Some 2))
  /\ In (EntryModel.mk 1 (Some 1) "bob" "2024-01-01" (Some 2) (Some 1) 1000
           "paycheck") (entry (reads_as alice_paid (Some 2))).
Proof.
  assert (Hwf : wf (reads_as alice_paid (Some 2)))
    by apply reads_as_wf, run_wf, session_wf.
  assert (H : delete_entry (reads_as alice_paid (Some 2)) 1
              = Ok (false, reads_as alice_paid (Some 2)))
    by (vm_compute; reflexivity).
  split; [exact H |].
  apply (proj1 (delete_entry_spares_others _ 1 _ _ Hwf H)).
  - vm_compute. auto.
  - vm_compute. discriminate.
Defined.

(** * The identity of a call *)

(** C8. For an e-mail address no user has, [set_current_user] sets no
    identity: it raises the [AttributeError] of reading [id] off the row
    that is not there, where [get_user] tests the row and answers [None].
    For the address of a stored user it returns, leaves every table as it
    is, and makes that user's key the [current_uid], under which a
    following [create_account] stores its row. *)
Theorem set_current_user_spec st em :
  ((forall u, In u (app_user st) -> UserModel.email u <> em) ->
   set_current_user st em = Raise AttributeError
   /\ get_user st em = Ok (None, st))
  /\ (forall u, wf st -> In u (app_user st) -> UserModel.email u = em ->
      exists st',
        set_current_user st em = Ok (tt, st')
        /\ current_uid st' = Some (UserModel.id u)
        /\ app_user st' = app_user st /\ account st' = account st
        /\ tag st' = tag st /\ entry st' = entry st
        /\ entry_tag st' = entry_tag st
        /\ forall acc st'',
             create_account st' acc = Ok (tt, st'') ->
             exists row,
               account st'' = account st ++ [row]
               /\ AccountModel.user_id row = Some (UserModel.id u)
               /\ AccountModel.name row = AccountIn.name acc).
Proof.
  split.
  - intros Hno.
    assert (first (fun u => (UserModel.email u =? em)%string) (app_user st)
            = None) as E.
    { apply first_none_intro. intros u Hu. apply String.eqb_neq. auto. }
    unfold set_current_user, get_user. rewrite E. split; reflexivity.
  - intros u Hwf Hin <-. eexists. unfold set_current_user.
    rewrite first_by_email; auto using wf_emails. cbn [attr bind].
    split; [reflexivity |]. do 6 (split; [reflexivity |]).
    intros acc st'' H. apply create_account_inv in H as [_ ->].
    eexists. split; [reflexivity |]. split; reflexivity.
Qed.

Lemma set_current_user_spec_witness :
  set_current_user alice_books "carol@example.com" = Raise AttributeError
  /\ exists st',
       set_current_user two_users "carol@example.com" = Ok (tt, st')
       /\ current_uid st' = Some 2.
Proof.
  split.
  - apply (proj1 (set_current_user_spec alice_books "carol@example.com")).
    intros u Hin. vm_compute in Hin. destruct Hin as [<- | []]. discriminate.
  - destruct (proj2 (set_current_user_spec two_users "carol@example.com")
                (UserModel.mk 2 "carol@example.com" "pw" "cl" "carol"
                   (Some "2024-01-01"%string)))
      as (st' & Hset & Hu & _).
    + apply session_wf.
    + vm_compute. auto.
    + reflexivity.
    + exists st'. split; [exact Hset | exact Hu].
Defined.

(** * An entry within one account *)

(** C10. An entry whose two sides name the same account is accepted and
    stored with the same reference on both sides, and no balance changes.
    When the name resolves, the amount is added once to the debit sum and
    once to the credit sum of that account name, and to no other sum. *)
Theorem add_entry_same_account st e :
  EntryIn.debit_account e = EntryIn.credit_account e ->
  exists st',
    add_entry st e = Ok (tt, st')
    /\ (exists row,
          entry st' = entry st ++ [row]
          /\ EntryModel.credit_account_id row = EntryModel.debit_account_id row
          /\ EntryModel.amount row = EntryIn.amount e
          /\ EntryModel.user_id row = current_uid st)
    /\ (forall n, get_account_balance st' n = Ok (balance st n, st'))
    /\ (wf st -> resolves st (EntryIn.debit_account e) ->
        forall n,
          let x := if (EntryIn.debit_account e =? n)%string
                   then EntryIn.amount e else 0 in
          total (map EntryModel.amount (debits st' n))
          = total (map EntryModel.amount (debits st n)) + x
          /\ total (map EntryModel.amount (credits st' n))
             = total (map EntryModel.amount (credits st n)) + x).
Proof.
  intros Hsame. destruct (add_entry_ok st e) as [st' H]. exists st'.
  assert (Hids : EntryModel.credit_account_id (entry_m st e)
                 = EntryModel.debit_account_id (entry_m st e)).
  { unfold entry_m. simpl. now rewrite Hsame. }
  split; [assumption | split; [| split]].
  - exists (entry_m st e). split; [| split; [exact Hids | split; reflexivity]].
    apply add_entry_inv in H.
    now destruct H as (? & ? & _ & _ & _ & _ & _ & ? & _).
  - intros n. rewrite get_account_balance_eq. unfold balance.
    rewrite (add_entry_debits st e st' n H), (add_entry_credits st e st' n H).
    rewrite Hids. do 2 f_equal. unfold numeric in *. lia.
  - intros Hwf Hres n x.
    rewrite (add_entry_debits st e st' n H), (add_entry_credits st e st' n H).
    rewrite Hids. unfold share, entry_m.
    cbn [EntryModel.debit_account_id].
    rewrite has_name_by_name by assumption. split; reflexivity.
Qed.

Lemma add_entry_same_account_witness :
  exists st',
    add_entry alice_paid
      (EntryIn.mk "bob" "2024-01-02" 50 "round trip" "cash" "cash" None)
    = Ok (tt, st')
    /\ get_account_balance st' "cash" = Ok (1000, st')
    /\ total (map EntryModel.amount (debits st' "cash")) = 1050
    /\ total (map EntryModel.amount (credits st' "cash")) = 50.
Proof.
  destruct (add_entry_same_account alice_paid
              (EntryIn.mk "bob" "2024-01-02" 50 "round trip" "cash" "cash"
                 None) eq_refl)
    as (st' & Hadd & _ & Hbal & Hsums).
  exists st'. split; [assumption |].
  split; [rewrite (Hbal "cash"%string); reflexivity |].
  destruct (Hsums (run_wf _ _ (session_wf _))) with (n := "cash"%string)
    as [Hd Hc].
  - exists (AccountModel.mk 1 (Some 1) "cash" "wallet" "asset").
    vm_compute. auto.
  - rewrite Hd, Hc. split; reflexivity.
Defined.

(** * Calls without an identity *)

(** C9, as the code has it.  Before any identity is set [current_uid] is
    [None] and no call tests it.  [create_account], [create_tag] and
    [add_entry] return and store their row (and the tags and associations
    of the entry) with a null owner; [delete_entry] deletes the entry of
    that key whose owner is null, if there is one; [list_entries],
    [list_accounts] and [get_account_balance] are about exactly the rows
    whose owner is null. *)
Theorem no_identity_spec st :
  current_uid st = None ->
  (forall acc,
     exists st',
       create_account st acc = Ok (tt, st')
       /\ account st'
          = account st
            ++ [AccountModel.mk (account_seq st) None (AccountIn.name acc)
                  (AccountIn.description acc) (AccountIn.type acc)]
       /\ tag st' = tag st /\ entry st' = entry st
       /\ entry_tag st' = entry_tag st /\ current_uid st' = None)
  /\ (forall t,
        exists st',
          create_tag st t = Ok (tt, st')
          /\ tag st' = tag st ++ [TagModel.mk (tag_seq st) None t]
          /\ account st' = account st /\ entry st' = entry st
          /\ entry_tag st' = entry_tag st /\ current_uid st' = None)
  /\ (forall e,
        exists st' row,
          add_entry st e = Ok (tt, st')
          /\ entry st' = entry st ++ [row]
          /\ EntryModel.user_id row = None
          /\ EntryModel.id row = entry_seq st
          /\ EntryModel.who row = EntryIn.who e
          /\ EntryModel.when row = EntryIn.when e
          /\ EntryModel.amount row = EntryIn.amount e
          /\ EntryModel.description row = EntryIn.description e
          /\ account st' = account st /\ current_uid st' = None
          /\ (forall t, In t (tag st') ->
                In t (tag st) \/ TagModel.user_id t = None)
          /\ (forall et, In et (entry_tag st') ->
                In et (entry_tag st)
                \/ (EntryTagModel.user_id et = None
                    /\ EntryTagModel.entry_id et = Some (entry_seq st))))
  /\ (forall i,
        ((forall e, In e (entry st) -> EntryModel.user_id e = None ->
                    EntryModel.id e <> i) ->
         delete_entry st i = Ok (false, st))
        /\ (forall e, In e (entry st) -> EntryModel.user_id e = None ->
                      EntryModel.id e = i ->
            exists st',
              delete_entry st i = Ok (true, st')
              /\ (forall x, In x (entry st') <->
                            In x (entry st) /\ EntryModel.id x <> i)
              /\ (forall et, In et (entry_tag st') ->
                    In et (entry_tag st)
                    /\ EntryTagModel.entry_id et <> Some i)
              /\ tag st' = tag st /\ account st' = account st
              /\ current_uid st' = None))
  /\ (forall dr cr,
        let rows :=
          filter (fun e =>
                    opt_eqb (EntryModel.user_id e) None
                    && restricts dr
                         (has_name st (EntryModel.debit_account_id e))
                    && restricts cr
                         (has_name st (EntryModel.credit_account_id e)))
            (entry st) in
        (list_entries st dr cr = Raise AttributeError
         /\ exists e, In e rows /\ entry_record st e = Raise AttributeError)
        \/ (exists l,
              list_entries st dr cr = Ok (l, st)
              /\ Forall2 (fun e r => entry_record st e = Ok r) rows l))
  /\ (forall ty,
        list_accounts st ty
        = Ok (map account_record
                (filter (fun a =>
                           opt_eqb (AccountModel.user_id a) None
                           && restricts ty
                                (fun t => (AccountModel.type a =? t)%string))
                   (account st)), st))
  /\ (forall n,
        get_account_balance st n
        = Ok (total
                (map EntryModel.amount
                   (filter (fun e =>
                              opt_eqb (EntryModel.user_id e) None
                              && has_name st (EntryModel.debit_account_id e) n)
                      (entry st)))
              - total
                  (map EntryModel.amount
                     (filter (fun e =>
                                opt_eqb (EntryModel.user_id e) None
                                && has_name st
                                     (EntryModel.credit_account_id e) n)
                        (entry st))), st)).
Proof.
  intros Hnone.
  split; [| split; [| split; [| split; [| split; [| split]]]]].
  - intros acc. unfold create_account. rewrite Hnone.
    destruct (account_clash st _) eqn:E.
    + apply account_clash_true in E as (a & u & _ & _ & _ & Hu). discriminate.
    + eexists. split; [reflexivity |]. cbn. now rewrite Hnone.
  - intros t. eexists. unfold create_tag. rewrite Hnone.
    split; [reflexivity |]. cbn. now rewrite Hnone.
  - intros e. destruct (add_entry_ok st e) as [st' H].
    exists st', (entry_m st e). split; [assumption |].
    destruct (add_entry_inv _ _ _ H)
      as (new & ids & Hres & _ & Hacc & Hu & Htag & He & Hlinks).
    split; [assumption |]. split; [exact Hnone |].
    do 5 (split; [reflexivity |]). split; [assumption |].
    split; [now rewrite Hu |]. split.
    + intros t Ht.
      destruct (add_entry_tag_rows _ _ _ _ H Ht) as [Hin | (Hown & _)];
        [now left | right]. now rewrite Hown.
    + intros et Het. rewrite Hlinks in Het.
      apply in_app_or in Het as [Het | Het]; [now left | right].
      apply link_tags_entry in Het as [Hent Hown]. now rewrite Hown.
  - intros i. split.
    + intros Hno. apply delete_entry_absent. intros e He Hu.
      rewrite Hnone in Hu. auto.
    + intros e He Hu Hi. rewrite <- Hnone in Hu.
      destruct (delete_entry_present st i e He Hu Hi)
        as (e' & _ & _ & Hi' & Hdel).
      exists (without_entry st e'). subst i. rewrite <- Hi'.
      split; [rewrite Hi'; exact Hdel |].
      split; [apply without_entry_entries |].
      split; [apply without_entry_links |].
      repeat split. exact Hnone.
  - intros dr cr rows.
    assert (Hq : query_entries st dr cr = rows).
    { rewrite query_entries_filter. unfold passes, owned. now rewrite Hnone. }
    unfold list_entries. rewrite Hq.
    destruct (traverse (entry_record st) rows) as [l | x] eqn:E.
    + right. exists l. split; [reflexivity |]. now apply traverse_Forall2.
    + left. apply traverse_raise in E as (e & He & Hr).
      pose proof (entry_record_raise _ _ _ Hr) as ->.
      split; [reflexivity |]. now exists e.
  - intros ty. rewrite list_accounts_eq. now rewrite Hnone.
  - intros n. rewrite get_account_balance_eq.
    unfold balance, debits, credits, owned. now rewrite Hnone.
Qed.

Lemma no_identity_spec_witness :
  (exists st',
     create_account init cash = Ok (tt, st')
     /\ account st' = [AccountModel.mk 1 None "cash" "wallet" "asset"])
  /\ list_accounts (run init (CreateAccount cash)) None
     = Ok ([AccountSchema.load "cash" "wallet" "asset"],
           run init (CreateAccount cash)).
Proof.
  split.
  - destruct (proj1 (no_identity_spec init eq_refl) cash)
      as (st' & H & Hacc & _).
    exists st'. split; [exact H | exact Hacc].
  - assert (H : current_uid (run init (CreateAccount cash)) = None)
      by (vm_compute; reflexivity).
    pose proof (no_identity_spec _ H) as (_ & _ & _ & _ & _ & Hl & _).
    rewrite (Hl None). vm_compute. reflexivity.
Defined.

(** * Keys taken from a listing *)

Lemma NoDup_map_inj {A B} (f : A -> B) l x y :
  NoDup (map f l) -> In x l -> In y l -> f x = f y -> x = y.
Proof.
  induction l as [| a l IH]; simpl; intros Hnd Hx Hy Hf; [contradiction |].
  inversion Hnd as [| ? ? Hnin Hnd']; subst.
  destruct Hx as [-> | Hx], Hy as [-> | Hy]; auto.
  - exfalso. apply Hnin. rewrite Hf. now apply in_map.
  - exfalso. apply Hnin. rewrite <- Hf. now apply in_map.
Qed.

(** Taking the rows of one key out of a list with distinct keys takes one
    row out. *)
Lemma length_without_key (l : list EntrySchema.t) r :
  NoDup (map EntrySchema.id l) -> In r l ->
  S (List.length
       (filter (fun x => negb (EntrySchema.id x =? EntrySchema.id r)) l))
  = List.length l.
Proof.
  induction l as [| a l IH]; intros Hnd Hin; [contradiction |].
  inversion Hnd as [| ? ? Hnin Hnd']; subst. cbn [filter].
  destruct Hin as [-> | Hin].
  - rewrite Z.eqb_refl. cbn [negb List.length]. f_equal.
    rewrite filter_all_in; [reflexivity |].
    intros x Hx. apply negb_true_iff, Z.eqb_neq. intros Heq.
    apply Hnin. rewrite <- Heq. now apply in_map.
  - assert ((EntrySchema.id a =? EntrySchema.id r) = false) as ->.
    { apply Z.eqb_neq. intros Heq. apply Hnin. rewrite Heq. now apply in_map. }
    cbn [negb List.length]. f_equal. now apply IH.
Qed.

(** X16. On an object driven by calls from a fresh store the keys a
    listing shows are pairwise distinct, and each names one entry for
    [delete_entry]: no other listed record has that key, [delete_entry] of
    it returns [True], and the same listing afterwards is the former one
    without that one record. *)
Theorem listed_keys_distinct calls dr cr l :
  list_entries (session calls) dr cr = Ok (l, session calls) ->
  NoDup (map EntrySchema.id l)
  /\ forall r, In r l ->
       (forall x, In x l -> EntrySchema.id x = EntrySchema.id r -> x = r)
       /\ exists st',
            delete_entry (session calls) (EntrySchema.id r) = Ok (true, st')
            /\ list_entries st' dr cr
               = Ok (filter (fun x => negb (EntrySchema.id x =? EntrySchema.id r))
                       l, st')
            /\ S (List.length
                    (filter (fun x =>
                               negb (EntrySchema.id x =? EntrySchema.id r)) l))
               = List.length l.
Proof.
  intros H. pose proof (session_wf calls) as Hwf.
  apply list_entries_inv in H as [_ H].
  assert (Hnd : NoDup (map EntrySchema.id l)).
  { destruct (entry_records_fields _ _ _ H) as [-> _].
    rewrite query_entries_filter. apply NoDup_keys_filter. apply Hwf. }
  split; [exact Hnd |]. intros r Hr. split.
  - intros x Hx Hid. eapply NoDup_map_inj; eauto.
  - destruct (traverse_In _ _ _ _ H Hr) as (e & He & Hrec).
    apply query_entries_In in He as [He Hu].
    assert (Hid : EntrySchema.id r = EntryModel.id e).
    { apply entry_record_inv in Hrec as (c & d & ts & _ & _ & _ & ->).
      reflexivity. }
    exists (without_entry (session calls) e). rewrite Hid.
    split; [now apply delete_entry_found |].
    split; [| rewrite <- Hid; now apply length_without_key].
    unfold list_entries. rewrite without_entry_query.
    rewrite (traverse_ext_in _ (entry_record (session calls))).
    + erewrite traverse_filter; [reflexivity | eassumption |].
      intros x r' _ Hrec'.
      apply entry_record_inv in Hrec' as (c & d & ts & _ & _ & _ & ->).
      reflexivity.
    + intros x Hx. apply filter_In in Hx as [_ Hx].
      apply negb_true_iff, Z.eqb_neq in Hx.
      apply without_entry_record; [apply Hwf | assumption].
Qed.

Lemma listed_keys_distinct_witness :
  NoDup (map EntrySchema.id
           [EntrySchema.load 1 "2024-01-01" "paycheck" "salary" "cash" 1000
              "bob" [];
            EntrySchema.load 2 "2024-01-01" "paycheck" "salary" "cash" 1000
              "bob" ["groceries"%string]]).
Proof.
  refine (proj1 (listed_keys_distinct
                   [CreateUser alice; SetCurrentUser "alice@example.com";
                    CreateAccount cash; CreateAccount salary;
                    AddEntry paycheck; AddEntry tagged_paycheck]
                   None None _ _)).
  vm_compute. reflexivity.
Defined.
